(** * physicsEngine: attach/detach state machine, springs and the step

    A shallow embedding of [src/physicsEngine.py].

    - A Python [float] is an IEEE-754 binary64 number: it is modelled by
      Rocq's primitive [float], whose operations are the same roundings.
    - Objects are mutable and shared by reference (a spring holds its two
      bodies, an attached body holds its target).  The embedding keeps a
      store from references to object records; a method is a function from
      the store to its outcome and the store it leaves behind, written in a
      state-and-exception monad, one bind per statement of the source.
    - A raised exception is the [Raise] outcome; the store keeps what was
      assigned before the raise. *)

From Stdlib Require Import Floats ZArith Bool.
From stdpp Require Import gmap strings.

Set Warnings "-inexact-float".

Open Scope string_scope.

(** ** Exceptions *)

Inductive exn : Type :=
  | ValueError (msg : string)
  | ZeroDivisionError
  | TypeError
  | DanglingReference.

(** The outcome of an expression: a value or a raised exception. *)
Inductive result (A : Type) : Type :=
  | OK (a : A)
  | Raise (e : exn).

Arguments OK {A} a.
Arguments Raise {A} e.

(** ** Python float operations

    [+], [-], [*] and the comparisons never raise; [/] raises
    [ZeroDivisionError] when the divisor compares equal to zero. *)

Definition py_div (x y : float) : result float :=
  if PrimFloat.eqb y 0%float then Raise ZeroDivisionError
  else OK (x / y)%float.

(** ** Basic 2D vector helpers *)

Definition Vector2 : Type := float * float.

Definition v_add (a b : Vector2) : Vector2 := (a.1 + b.1, a.2 + b.2)%float.

Definition v_sub (a b : Vector2) : Vector2 := (a.1 - b.1, a.2 - b.2)%float.

Definition v_scale (a : Vector2) (s : float) : Vector2 := (a.1 * s, a.2 * s)%float.

(** [math.hypot] is a library function outside the repository: [v_len]
    and what calls it take it as a parameter. *)
Definition v_len (hypot : float -> float -> float) (a : Vector2) : float :=
  hypot a.1 a.2.

Definition v_zero : Vector2 := (0, 0)%float.

(** ** Physics primitives *)

(** The class of an object, with the fields its subclass adds. *)
Inductive klass : Type :=
  | PhysicsObjectK
  | Anchor
  | Ball (radius : float)
  | Box (width height : float).

Definition class_name (k : klass) : string :=
  match k with
  | PhysicsObjectK => "PhysicsObject"
  | Anchor => "Anchor"
  | Ball _ => "Ball"
  | Box _ _ => "Box"
  end.

Record PhysicsObject : Type := mkObj {
  position : Vector2;
  velocity : Vector2;
  mass : float;
  color : Z * Z * Z;
  fixed : bool;
  _attached_to : option nat;
  _attached_part : option string;
  _attached_offset : option Vector2;
  _previous_fixed_state : option bool;
  cls : klass
}.

(** Attribute assignment, one function per assigned attribute. *)
Definition set_position (p : Vector2) (o : PhysicsObject) : PhysicsObject :=
  mkObj p (velocity o) (mass o) (color o) (fixed o) (_attached_to o)
        (_attached_part o) (_attached_offset o) (_previous_fixed_state o) (cls o).

Definition set_velocity (v : Vector2) (o : PhysicsObject) : PhysicsObject :=
  mkObj (position o) v (mass o) (color o) (fixed o) (_attached_to o)
        (_attached_part o) (_attached_offset o) (_previous_fixed_state o) (cls o).

Definition set_fixed (f : bool) (o : PhysicsObject) : PhysicsObject :=
  mkObj (position o) (velocity o) (mass o) (color o) f (_attached_to o)
        (_attached_part o) (_attached_offset o) (_previous_fixed_state o) (cls o).

Definition set_attached_to (t : option nat) (o : PhysicsObject) : PhysicsObject :=
  mkObj (position o) (velocity o) (mass o) (color o) (fixed o) t
        (_attached_part o) (_attached_offset o) (_previous_fixed_state o) (cls o).

Definition set_attached_part (p : option string) (o : PhysicsObject) : PhysicsObject :=
  mkObj (position o) (velocity o) (mass o) (color o) (fixed o) (_attached_to o)
        p (_attached_offset o) (_previous_fixed_state o) (cls o).

Definition set_attached_offset (v : option Vector2) (o : PhysicsObject) : PhysicsObject :=
  mkObj (position o) (velocity o) (mass o) (color o) (fixed o) (_attached_to o)
        (_attached_part o) v (_previous_fixed_state o) (cls o).

Definition set_previous_fixed_state (f : option bool) (o : PhysicsObject)
  : PhysicsObject :=
  mkObj (position o) (velocity o) (mass o) (color o) (fixed o) (_attached_to o)
        (_attached_part o) (_attached_offset o) f (cls o).

(** ** The store and the monad of methods

    The store holds every live object by reference.  A method is a function
    from the store to an outcome and the store it leaves behind: what was
    assigned before an exception stays assigned. *)

Abbreviation heap := (gmap nat PhysicsObject).

Definition M (A : Type) : Type := heap -> result A * heap.

Global Instance M_ret : MRet M := λ A a h, (OK a, h).

Global Instance M_bind : MBind M := λ A B k m h,
  match m h with
  | (OK a, h') => k a h'
  | (Raise e, h') => (Raise e, h')
  end.

Definition raise {A : Type} (e : exn) : M A := λ h, (Raise e, h).

Definition lift {A : Type} (r : result A) : M A := λ h, (r, h).

(** [r.attr], read through [f]. *)
Definition load (r : nat) : M PhysicsObject := λ h,
  match h !! r with
  | Some o => (OK o, h)
  | None => (Raise DanglingReference, h)
  end.

(** [r.attr = v], written through the setter [f]. *)
Definition assign (r : nat) (f : PhysicsObject -> PhysicsObject) : M unit := λ h,
  match h !! r with
  | Some o => (OK tt, <[r := f o]> h)
  | None => (Raise DanglingReference, h)
  end.

(** *** apply_force *)

Definition apply_force (self : nat) (force : Vector2) (dt : float) : M unit :=
  o ← load self;
  if fixed o || bool_decide (_attached_to o ≠ None) then mret tt
  else if (mass o <=? 0)%float then mret tt
  else
    ax ← lift (py_div force.1 (mass o));
    ay ← lift (py_div force.2 (mass o));
    assign self (set_velocity
                   ((velocity o).1 + ax * dt, (velocity o).2 + ay * dt)%float).

(** *** get_attach_point, dispatched on the class *)

Definition no_attach_point (cname part : string) : exn :=
  ValueError (cname ++ " has no attach point named '" ++ part ++ "'").

Definition box_parts (o : PhysicsObject) (width height : float)
  : gmap string Vector2 :=
  let '(cx, cy) := position o in
  let hw := (width / 2)%float in
  let hh := (height / 2)%float in
  list_to_map
    [ ("center", (cx, cy));
      ("top_left", (cx - hw, cy - hh)%float);
      ("top_right", (cx + hw, cy - hh)%float);
      ("bottom_left", (cx - hw, cy + hh)%float);
      ("bottom_right", (cx + hw, cy + hh)%float) ].

Definition attach_point_of (o : PhysicsObject) (part : string) : result Vector2 :=
  match cls o with
  | PhysicsObjectK =>
      if String.eqb part "center" then OK (position o)
      else Raise (no_attach_point (class_name (cls o)) part)
  | Anchor =>
      if String.eqb part "anchor" || String.eqb part "center" then OK (position o)
      else Raise (no_attach_point "Anchor" part)
  | Ball _ =>
      if String.eqb part "center" then OK (position o)
      else Raise (no_attach_point "Ball" part)
  | Box width height =>
      match box_parts o width height !! part with
      | Some p => OK p
      | None => Raise (no_attach_point "Box" part)
      end
  end.

Definition get_attach_point (self : nat) (part : string) : M Vector2 :=
  o ← load self;
  lift (attach_point_of o part).

(** *** integrate *)

(** [self._attached_part or "center"] *)
Definition part_or_center (p : option string) : string :=
  match p with
  | Some s => if String.eqb s "" then "center" else s
  | None => "center"
  end.

Definition integrate (self : nat) (dt : float) : M unit :=
  o ← load self;
  match _attached_to o with
  | Some target =>
      let part := part_or_center (_attached_part o) in
      attach_point ← get_attach_point target part;
      _ ← match _attached_offset o with
          | None => assign self (set_position attach_point)
          | Some offset => assign self (set_position (v_add attach_point offset))
          end;
      t ← load target;
      assign self (set_velocity (velocity t))
  | None =>
      if fixed o then mret tt
      else
        assign self (set_position
                       ((position o).1 + (velocity o).1 * dt,
                        (position o).2 + (velocity o).2 * dt)%float)
  end.

(** *** attach_to and detach *)

Definition attach_to (self : nat) (target : option nat) (target_part : string)
  : M unit :=
  match target with
  | None => raise (ValueError "target must be a PhysicsObject")
  | Some target =>
      attach_point ← get_attach_point target target_part;
      o ← load self;
      _ ← assign self (set_previous_fixed_state (Some (fixed o)));
      let offset := v_sub (position o) attach_point in
      _ ← assign self (set_attached_to (Some target));
      _ ← assign self (set_attached_part (Some target_part));
      _ ← assign self (set_attached_offset (Some offset));
      assign self (set_fixed true)
  end.

Definition detach (self : nat) : M unit :=
  o ← load self;
  match _attached_to o with
  | None => mret tt
  | Some old_target =>
      t ← load old_target;
      _ ← assign self (set_velocity (velocity t));
      _ ← assign self (set_attached_to None);
      _ ← assign self (set_attached_part None);
      _ ← assign self (set_attached_offset None);
      match _previous_fixed_state o with
      | Some f =>
          _ ← assign self (set_fixed f);
          assign self (set_previous_fixed_state None)
      | None => assign self (set_fixed false)
      end
  end.

Definition is_attached (o : PhysicsObject) : bool :=
  bool_decide (_attached_to o ≠ None).

(** *** Constructors of the subclasses

    [Anchor.__init__], and the dataclass constructor of [Ball] with its
    defaults for [color] and [fixed]. *)

Definition Anchor_new (position : Vector2) : PhysicsObject :=
  mkObj position v_zero infinity (255, 0, 0)%Z true None None None None Anchor.

Definition Ball_new (position velocity : Vector2) (mass radius : float)
  : PhysicsObject :=
  mkObj position velocity mass (0, 0, 0)%Z false None None None None (Ball radius).

(** ** RodSpring *)

Record RodSpring : Type := mkSpring {
  a : nat;
  b : nat;
  rest_length : option float;
  stiffness : float;
  damping : float
}.

Section WithHypot.

Variable hypot : float -> float -> float.

(** The dataclass constructor followed by [__post_init__]. *)
Definition RodSpring_new (a b : nat) (rest_length : option float)
    (stiffness damping : float) : M RodSpring :=
  match rest_length with
  | Some r => mret (mkSpring a b (Some r) stiffness damping)
  | None =>
      ob ← load b;
      oa ← load a;
      mret (mkSpring a b (Some (v_len hypot (v_sub (position ob) (position oa))))
                     stiffness damping)
  end.

(** [self.rest_length] as an operand of float subtraction. *)
Definition rest_length_float (c : RodSpring) : result float :=
  match rest_length c with
  | Some r => OK r
  | None => Raise TypeError
  end.

Definition apply (c : RodSpring) (dt : float) : M unit :=
  ob ← load (b c);
  oa ← load (a c);
  let delta := v_sub (position ob) (position oa) in
  let dist := v_len hypot delta in
  if PrimFloat.eqb dist 0%float then mret tt
  else
    dx ← lift (py_div delta.1 dist);
    dy ← lift (py_div delta.2 dist);
    let dir_vec : Vector2 := (dx, dy) in
    r ← lift (rest_length_float c);
    let stretch := (dist - r)%float in
    let force_mag := (- stiffness c * stretch)%float in
    let rel_vel := v_sub (velocity ob) (velocity oa) in
    let damping_force :=
      (- damping c * (rel_vel.1 * dir_vec.1 + rel_vel.2 * dir_vec.2))%float in
    let total_force := (force_mag + damping_force)%float in
    let force := v_scale dir_vec total_force in
    _ ← apply_force (a c) (v_scale force (-1)%float) dt;
    apply_force (b c) force dt.

(** ** Simple simulation step *)

Fixpoint for_each {A : Type} (f : A -> M unit) (l : list A) : M unit :=
  match l with
  | [] => mret tt
  | x :: rest => _ ← f x; for_each f rest
  end.

Definition step (objects : list nat) (constraints : list RodSpring) (dt : float)
  : M unit :=
  _ ← for_each (λ c, apply c dt) constraints;
  for_each (λ obj, integrate obj dt) objects.

End WithHypot.

(** * Vocabulary of the properties *)

(** ** The object a method leaves behind *)

(** apply_force on an object that responds to forces. *)
Definition accelerate (o : PhysicsObject) (force : Vector2) (dt : float)
  : PhysicsObject :=
  set_velocity
    (v_add (velocity o) (v_scale ((force.1 / mass o)%float, (force.2 / mass o)%float) dt))
    o.

(** integrate on a free object that is not fixed. *)
Definition euler (o : PhysicsObject) (dt : float) : PhysicsObject :=
  set_position
    ((position o).1 + (velocity o).1 * dt, (position o).2 + (velocity o).2 * dt)%float
    o.

(** Where an attached object is put: the attach point plus the recorded
    offset (the attach point itself when no offset is recorded). *)
Definition followed_position (attach_point : Vector2) (o : PhysicsObject) : Vector2 :=
  match _attached_offset o with
  | None => attach_point
  | Some offset => v_add attach_point offset
  end.

(** integrate on an attached object. *)
Definition follow (attach_point target_velocity : Vector2) (o : PhysicsObject)
  : PhysicsObject :=
  set_velocity target_velocity (set_position (followed_position attach_point o) o).

(** attach_to, once the attach point is resolved. *)
Definition attached (o : PhysicsObject) (target : nat) (target_part : string)
    (attach_point : Vector2) : PhysicsObject :=
  mkObj (position o) (velocity o) (mass o) (color o) true
        (Some target) (Some target_part) (Some (v_sub (position o) attach_point))
        (Some (fixed o)) (cls o).

(** detach on an attached object. *)
Definition detached (o : PhysicsObject) (target_velocity : Vector2) : PhysicsObject :=
  mkObj (position o) target_velocity (mass o) (color o)
        (match _previous_fixed_state o with Some f => f | None => false end)
        None None None None (cls o).

(** The force on [b] that apply computes from the two objects it reads. *)
Definition spring_force (hypot : float -> float -> float) (c : RodSpring)
    (oa ob : PhysicsObject) (r : float) : Vector2 :=
  let delta := v_sub (position ob) (position oa) in
  let dist := v_len hypot delta in
  let dir_vec : Vector2 := ((delta.1 / dist)%float, (delta.2 / dist)%float) in
  let stretch := (dist - r)%float in
  let force_mag := (- stiffness c * stretch)%float in
  let rel_vel := v_sub (velocity ob) (velocity oa) in
  let damping_force :=
    (- damping c * (rel_vel.1 * dir_vec.1 + rel_vel.2 * dir_vec.2))%float in
  let total_force := (force_mag + damping_force)%float in
  v_scale dir_vec total_force.

(** ** Attach point names *)

(** The names each class answers to, as its [get_attach_point] tests them. *)
Definition attach_point_names (k : klass) : list string :=
  match k with
  | PhysicsObjectK => ["center"]
  | Anchor => ["anchor"; "center"]
  | Ball _ => ["center"]
  | Box _ _ => ["center"; "top_left"; "top_right"; "bottom_left"; "bottom_right"]
  end.

(** ** Invariants of the store *)

(** [m] keeps [P], however it ends. *)
Definition preserves {A : Type} (P : heap -> Prop) (m : M A) : Prop :=
  ∀ h res h', P h -> m h = (res, h') -> P h'.

Definition fixed_while_attached (h : heap) : Prop :=
  ∀ r o, h !! r = Some o -> _attached_to o ≠ None -> fixed o = true.

(** What may happen around an attached object [self] between two of its
    integrate calls: any change to the other objects (the target moving
    under its own integrate or under forces, attributes assigned from
    outside), as long as [self] is left alone and no object changes class
    or disappears. *)
Definition world_step (self : nat) (h h' : heap) : Prop :=
  h' !! self = h !! self ∧
  ∀ r x, h !! r = Some x ->
         ∃ x', h' !! r = Some x' ∧ class_name (cls x') = class_name (cls x).

(** The states reached from [h] by integrate calls on [self] interleaved
    with changes to the rest of the world. *)
Inductive evolves (self : nat) (h : heap) : heap -> Prop :=
  | evolves_here : evolves self h h
  | evolves_integrate h1 h2 dt :
      evolves self h h1 -> integrate self dt h1 = (OK tt, h2) -> evolves self h h2
  | evolves_world h1 h2 :
      evolves self h h1 -> world_step self h1 h2 -> evolves self h h2.

(** The attachment [self] holds in [h]: its target, the name of the point
    and the recorded offset; the target is live and of the class it had. *)
Definition attachment_is (self target : nat) (target_part : string)
    (offset : Vector2) (target_class : string) (h : heap) : Prop :=
  ∃ o t,
    h !! self = Some o ∧ _attached_to o = Some target ∧
    _attached_part o = Some target_part ∧ _attached_offset o = Some offset ∧
    h !! target = Some t ∧ class_name (cls t) = target_class.

(** ** Floats: classes and equality up to the sign of zero *)

Definition SFis_zero (x : spec_float) : bool :=
  match x with S754_zero _ => true | _ => false end.

Definition SFis_finite (x : spec_float) : bool :=
  match x with S754_zero _ | S754_finite _ _ _ => true | _ => false end.

Definition SFis_nan (x : spec_float) : bool :=
  match x with S754_nan => true | _ => false end.

(** Python's [==] on two tuples of floats: componentwise IEEE equality. *)
Definition v_eqb (a b : Vector2) : bool :=
  PrimFloat.eqb a.1 b.1 && PrimFloat.eqb a.2 b.2.

(** The same float, or two zeros (0.0 and -0.0 compare equal). *)
Definition feq (x y : float) : Prop :=
  x = y ∨ (is_zero x = true ∧ is_zero y = true).

Definition v_feq (p q : Vector2) : Prop := feq p.1 q.1 ∧ feq p.2 q.2.

(** Free, not fixed, of a mass that is a number, with zero velocity. *)
Definition still (o : PhysicsObject) : Prop :=
  _attached_to o = None ∧ fixed o = false ∧ is_nan (mass o) = false ∧
  is_zero (velocity o).1 = true ∧ is_zero (velocity o).2 = true.

(** The object [r] is live and still, and sits at [p0] up to the sign of a
    zero coordinate. *)
Definition at_rest (h : heap) (r : nat) (p0 : Vector2) : Prop :=
  ∃ o, h !! r = Some o ∧ still o ∧ v_feq (position o) p0.

(** ** Scenes of the examples *)

(** The Euclidean norm by its textbook formula: it stands in for
    [math.hypot] where an example has to be run. *)
Definition hypot_sqrt (x y : float) : float := sqrt (x * x + y * y)%float.

(** The scene of the module's demo: an anchor at the origin and a ball. *)
Definition anchor : nat := 0.
Definition ball : nat := 1.

Definition demo : heap :=
  <[anchor := Anchor_new (0, 0)%float]>
    (<[ball := Ball_new (1, 0)%float v_zero 1 0.2]> ∅).

(** The demo scene once the ball is attached to the anchor's "anchor" point
    and the anchor has been given a velocity. *)
Definition demo_attached : heap :=
  <[anchor := set_velocity (0.5, 0)%float (Anchor_new (0, 0)%float)]>
    (<[ball := attached (Ball_new (1, 0)%float v_zero 1 0.2) anchor "anchor"
                        (0, 0)%float]> ∅).

(** A target ball moving right at 0.6 per unit of time and a follower. *)
Definition mover : nat := 0.
Definition follower : nat := 1.

Definition rigidity_scene : heap :=
  <[mover := Ball_new (0.1, 0)%float (0.6, 0)%float 1 0.1]>
    (<[follower := Ball_new (0.3, 0)%float v_zero 1 0.1]> ∅).

(** The follower attaches to the mover's center, the mover integrates over
    one unit of time, then the follower integrates. *)
Definition rigidity_run : M unit :=
  _ ← attach_to follower (Some mover) "center";
  _ ← integrate mover 1;
  integrate follower 1.

(** The follower attached to a mover that starts at the origin with
    velocity (1, 0), then one step over one unit of time in which the
    follower is integrated before the mover. *)
Definition lagging_scene : heap :=
  <[mover := Ball_new (0, 0)%float (1, 0)%float 1 0.1]>
    (<[follower := Ball_new (1, 0)%float v_zero 1 0.1]> ∅).

Definition lagging_run : M unit :=
  _ ← attach_to follower (Some mover) "center";
  step hypot_sqrt [follower; mover] [] 1.

(** The module's demo: attach, one step, the anchor given a velocity from
    outside, detach. *)
Definition demo_run : M unit :=
  _ ← attach_to ball (Some anchor) "anchor";
  _ ← step hypot_sqrt [anchor; ball] [] 0.001;
  _ ← assign anchor (set_velocity (0.5, 0)%float);
  detach ball.

(** The dataclass constructor of [Box] with its defaults for [color] and
    [fixed]. *)
Definition Box_new (position velocity : Vector2) (mass width height : float)
  : PhysicsObject :=
  mkObj position velocity mass (0, 0, 0)%Z false None None None None
        (Box width height).

(** A 2 by 2 crate at (4, 5) moving right, and a rider at (1, 1) attached to
    its top left corner (3, 4). *)
Definition crate : nat := 0.
Definition rider : nat := 1.

Definition corner_scene : heap :=
  <[crate := Box_new (4, 5)%float (1, 0)%float 1 2 2]>
    (<[rider := attached (Ball_new (1, 1)%float v_zero 1 0.1) crate "top_left"
                         (3, 4)%float]> ∅).

(** Two balls on the same spot, joined by a spring. *)
Definition coincident_scene : heap :=
  <[0%nat := Ball_new (2, 3)%float v_zero 1 0.1]>
    (<[1%nat := Ball_new (2, 3)%float v_zero 1 0.1]> ∅).

(** Two balls 5 apart, and two springs of rest length 5 between them:
    an ordinary one, and a rigid rod given as an infinitely stiff spring. *)
Definition spring_scene : heap :=
  <[0%nat := Ball_new (0, 0)%float v_zero 1 0.1]>
    (<[1%nat := Ball_new (3, 4)%float v_zero 1 0.1]> ∅).

Definition soft_spring : RodSpring := mkSpring 0 1 (Some 5%float) 100 0.

Definition rigid_rod : RodSpring := mkSpring 0 1 (Some 5%float) infinity 0.

(** ** What a step cannot change *)

(** Everything of an object but its position and velocity. *)
Definition static (o : PhysicsObject)
  : float * (Z * Z * Z) * bool * option nat * option string * option Vector2 *
    option bool * klass :=
  (mass o, color o, fixed o, _attached_to o, _attached_part o,
   _attached_offset o, _previous_fixed_state o, cls o).

(** The same objects are live in both stores, each with the same static
    part. *)
Definition same_static (h h' : heap) : Prop :=
  ∀ r, static <$> h' !! r = static <$> h !! r.

(** The same objects are live in both stores, each at the same position
    and with the same static part: at most velocities differ. *)
Definition same_but_velocity (h h' : heap) : Prop :=
  ∀ r, (λ o, (position o, static o)) <$> h' !! r =
       (λ o, (position o, static o)) <$> h !! r.

(** Every attachment of the store points to a live object and names one of
    its attach points. *)
Definition well_formed (h : heap) : Prop :=
  ∀ r o t,
    h !! r = Some o -> _attached_to o = Some t ->
    ∃ x, h !! t = Some x ∧
         part_or_center (_attached_part o) ∈ attach_point_names (cls x).

(** Both ends of the spring are live and its rest length is set. *)
Definition spring_ok (h : heap) (c : RodSpring) : Prop :=
  is_Some (h !! a c) ∧ is_Some (h !! b c) ∧ rest_length c ≠ None.

(** An object as its constructor leaves it: never attached, or detached. *)
Definition unattached (o : PhysicsObject) : Prop :=
  _attached_to o = None ∧ _attached_part o = None ∧
  _attached_offset o = None ∧ _previous_fixed_state o = None.

(** Whether apply_force changes the object: not fixed, not attached, and
    of a mass that is not <= 0. *)
Definition responds (o : PhysicsObject) : bool :=
  negb (fixed o || is_attached o || (mass o <=? 0)%float).

(** apply_force, as a function on the object. *)
Definition pushed (o : PhysicsObject) (force : Vector2) (dt : float)
  : PhysicsObject :=
  if responds o then accelerate o force dt else o.

(** * Properties *)

(** ** Python float comparisons *)

Lemma not_leb_zero_not_eqb (m : float) :
  (m <=? 0)%float = false -> PrimFloat.eqb m 0%float = false.
Proof.
  rewrite leb_spec, FloatAxioms.eqb_spec. unfold SFleb, SFeqb.
  destruct (SFcompare (Prim2SF m) (Prim2SF 0)) as [[]|]; congruence.
Qed.

Lemma py_div_ok (x y : float) :
  PrimFloat.eqb y 0%float = false -> py_div x y = OK (x / y)%float.
Proof. intros H. unfold py_div. now rewrite H. Qed.

(** ** Running the monad *)

Lemma bind_ok {A B : Type} (m : M A) (k : A -> M B) h v h' :
  m h = (OK v, h') -> (m ≫= k) h = k v h'.
Proof. intros H. unfold mbind, M_bind. now rewrite H. Qed.

Lemma bind_raise {A B : Type} (m : M A) (k : A -> M B) h e h' :
  m h = (Raise e, h') -> (m ≫= k) h = (Raise e, h').
Proof. intros H. unfold mbind, M_bind. now rewrite H. Qed.

Lemma load_ok (h : heap) r o : h !! r = Some o -> load r h = (OK o, h).
Proof. intros H. unfold load. now rewrite H. Qed.

Lemma assign_ok (h : heap) r o f :
  h !! r = Some o -> assign r f h = (OK tt, <[r := f o]> h).
Proof. intros H. unfold assign. now rewrite H. Qed.

Lemma assign_again (h : heap) r o f :
  assign r f (<[r := o]> h) = (OK tt, <[r := f o]> h).
Proof.
  unfold assign. rewrite lookup_insert_eq. now rewrite insert_insert_eq.
Qed.

Lemma get_attach_point_run (h : heap) r o part :
  h !! r = Some o -> get_attach_point r part h = (attach_point_of o part, h).
Proof.
  intros H. unfold get_attach_point. now rewrite (bind_ok _ _ _ _ _ (load_ok _ _ _ H)).
Qed.

(** Steps a monadic program through its loads and assignments. *)
Ltac run :=
  repeat first
    [ erewrite bind_ok by (first [ apply load_ok; eassumption
                                 | apply assign_again
                                 | apply assign_ok; eassumption
                                 | erewrite get_attach_point_run by eassumption;
                                   match goal with
                                   | H : attach_point_of _ _ = _ |- _ => rewrite H
                                   end; reflexivity
                                 | reflexivity ])
    | rewrite assign_again
    | erewrite assign_ok by eassumption ];
  unfold set_position, set_velocity, set_fixed, set_attached_to,
    set_attached_part, set_attached_offset, set_previous_fixed_state;
  cbn [position velocity mass color fixed _attached_to _attached_part
       _attached_offset _previous_fixed_state cls].

(** ** What each method does to the store *)

Lemma apply_force_run (h : heap) self o force dt :
  h !! self = Some o ->
  apply_force self force dt h =
    (OK tt,
     if fixed o || is_attached o || (mass o <=? 0)%float then h
     else <[self := accelerate o force dt]> h).
Proof.
  intros Hs. unfold apply_force, is_attached. run.
  destruct (fixed o || bool_decide (_attached_to o ≠ None)); [reflexivity|].
  destruct (mass o <=? 0)%float eqn:Hm; [reflexivity|]. cbn [orb].
  apply not_leb_zero_not_eqb in Hm.
  unfold lift. rewrite !(py_div_ok _ _ Hm). run. reflexivity.
Qed.

Lemma integrate_free (h : heap) self o dt :
  h !! self = Some o -> _attached_to o = None ->
  integrate self dt h = (OK tt, if fixed o then h else <[self := euler o dt]> h).
Proof.
  intros Hs Ha. unfold integrate. run. rewrite Ha.
  destruct (fixed o); [reflexivity|]. run. reflexivity.
Qed.

Lemma integrate_attached (h : heap) self o target t attach_point dt :
  h !! self = Some o -> _attached_to o = Some target ->
  h !! target = Some t ->
  attach_point_of t (part_or_center (_attached_part o)) = OK attach_point ->
  integrate self dt h = (OK tt, <[self := follow attach_point (velocity t) o]> h).
Proof.
  intros Hs Ha Ht Hp. unfold integrate. run. rewrite Ha. run.
  unfold follow, followed_position.
  destruct (decide (target = self)) as [->|Hne].
  - assert (t = o) as -> by congruence.
    destruct (_attached_offset o); run;
      (erewrite bind_ok by (apply load_ok, lookup_insert_eq)); run; reflexivity.
  - destruct (_attached_offset o); run;
      (erewrite bind_ok
         by (apply load_ok; rewrite lookup_insert_ne by congruence; eassumption));
      run; reflexivity.
Qed.

Lemma integrate_attached_raise (h : heap) self o target t e dt :
  h !! self = Some o -> _attached_to o = Some target ->
  h !! target = Some t ->
  attach_point_of t (part_or_center (_attached_part o)) = Raise e ->
  integrate self dt h = (Raise e, h).
Proof.
  intros Hs Ha Ht Hp. unfold integrate. run. rewrite Ha.
  erewrite bind_raise; [reflexivity|].
  erewrite get_attach_point_run by eassumption. now rewrite Hp.
Qed.

Lemma attach_to_run (h : heap) self o target t target_part attach_point :
  h !! self = Some o -> h !! target = Some t ->
  attach_point_of t target_part = OK attach_point ->
  attach_to self (Some target) target_part h =
    (OK tt, <[self := attached o target target_part attach_point]> h).
Proof.
  intros Hs Ht Hp. unfold attach_to. run. reflexivity.
Qed.

Lemma attach_to_none (h : heap) self target_part :
  attach_to self None target_part h =
    (Raise (ValueError "target must be a PhysicsObject"), h).
Proof. reflexivity. Qed.

Lemma attach_to_raise (h : heap) self target t target_part e :
  h !! target = Some t ->
  attach_point_of t target_part = Raise e ->
  attach_to self (Some target) target_part h = (Raise e, h).
Proof.
  intros Ht Hp. unfold attach_to.
  erewrite bind_raise; [reflexivity|].
  erewrite get_attach_point_run by eassumption. now rewrite Hp.
Qed.

Lemma detach_free (h : heap) self o :
  h !! self = Some o -> _attached_to o = None -> detach self h = (OK tt, h).
Proof. intros Hs Ha. unfold detach. run. now rewrite Ha. Qed.

Lemma detach_attached (h : heap) self o target t :
  h !! self = Some o -> _attached_to o = Some target -> h !! target = Some t ->
  detach self h = (OK tt, <[self := detached o (velocity t)]> h).
Proof.
  intros Hs Ha Ht. unfold detach. run. rewrite Ha. run.
  unfold detached. destruct (_previous_fixed_state o) eqn:Hp; run;
    rewrite ?Hp; reflexivity.
Qed.

(** ** The module's demo and the corners of a box *)

Example demo_attach :
  (attach_to ball (Some anchor) "anchor" demo).2 !! ball =
    Some (mkObj (1, 0)%float (0, 0)%float 1 (0, 0, 0)%Z true
                (Some anchor) (Some "anchor") (Some (1, 0)%float) (Some false)
                (Ball 0.2)).
Proof. vm_compute. reflexivity. Qed.

Example demo_run_result :
  (demo_run demo).1 = OK tt ∧
  (demo_run demo).2 !! ball =
    Some (mkObj (1, 0)%float (0.5, 0)%float 1 (0, 0, 0)%Z false
                None None None None (Ball 0.2)).
Proof. split; vm_compute; reflexivity. Qed.

Example box_corners :
  let box := mkObj (0, 0)%float v_zero 1 (0, 0, 0)%Z false None None None None
                   (Box 2 4) in
  attach_point_of box "top_left" = OK (-1, -2)%float ∧
  attach_point_of box "bottom_right" = OK (1, 2)%float ∧
  attach_point_of box "top" = Raise (ValueError "Box has no attach point named 'top'").
Proof. repeat split; vm_compute; reflexivity. Qed.

(** ** Named attach points *)

Lemma box_parts_lookup (o : PhysicsObject) width height part :
  box_parts o width height !! part =
    let hw := (width / 2)%float in
    let hh := (height / 2)%float in
    if decide ("center" = part) then Some (position o)
    else if decide ("top_left" = part)
      then Some ((position o).1 - hw, (position o).2 - hh)%float
    else if decide ("top_right" = part)
      then Some ((position o).1 + hw, (position o).2 - hh)%float
    else if decide ("bottom_left" = part)
      then Some ((position o).1 - hw, (position o).2 + hh)%float
    else if decide ("bottom_right" = part)
      then Some ((position o).1 + hw, (position o).2 + hh)%float
    else None.
Proof.
  unfold box_parts. destruct (position o) as [cx cy]. cbn [list_to_map foldr fst snd].
  rewrite !lookup_insert, lookup_empty. reflexivity.
Qed.

Lemma attach_point_of_known (o : PhysicsObject) part :
  part ∈ attach_point_names (cls o) -> ∃ p, attach_point_of o part = OK p.
Proof.
  unfold attach_point_of. intros Hin.
  destruct (cls o) eqn:Hc; cbn [attach_point_names] in Hin.
  - apply list_elem_of_singleton in Hin as ->. eauto.
  - apply elem_of_cons in Hin as [->|Hin]; [eauto|].
    apply list_elem_of_singleton in Hin as ->. eauto.
  - apply list_elem_of_singleton in Hin as ->. eauto.
  - rewrite box_parts_lookup. cbn zeta.
    repeat (apply elem_of_cons in Hin as [->|Hin]; [cbn; eauto|]).
    now apply elem_of_nil in Hin.
Qed.

Lemma attach_point_of_unknown (o : PhysicsObject) part :
  part ∉ attach_point_names (cls o) ->
  attach_point_of o part = Raise (no_attach_point (class_name (cls o)) part).
Proof.
  unfold attach_point_of. intros Hnin.
  destruct (cls o) eqn:Hc; cbn [attach_point_names class_name] in *.
  - destruct (String.eqb_spec part "center") as [->|]; [|reflexivity].
    exfalso. apply Hnin. set_solver.
  - destruct (String.eqb_spec part "anchor") as [->|]; [exfalso; apply Hnin; set_solver|].
    destruct (String.eqb_spec part "center") as [->|]; [|reflexivity].
    exfalso. apply Hnin. set_solver.
  - destruct (String.eqb_spec part "center") as [->|]; [|reflexivity].
    exfalso. apply Hnin. set_solver.
  - rewrite box_parts_lookup. cbn zeta.
    repeat (case_decide; [exfalso; apply Hnin; subst part; set_solver|]).
    reflexivity.
Qed.

(** Whether a name is known depends on the class alone, not on where the
    object is. *)
Lemma attach_point_of_same_class (o o' : PhysicsObject) part p :
  attach_point_of o part = OK p -> class_name (cls o') = class_name (cls o) ->
  ∃ p', attach_point_of o' part = OK p'.
Proof.
  intros Hp Hc. apply attach_point_of_known.
  destruct (decide (part ∈ attach_point_names (cls o'))) as [|Hn]; [assumption|].
  exfalso.
  assert (part ∉ attach_point_names (cls o)) as Hn'.
  { destruct (cls o), (cls o'); cbn in Hc; try discriminate; exact Hn. }
  apply attach_point_of_unknown in Hn'. congruence.
Qed.

(** ** Every way a method can end *)

Lemma apply_force_cases (h : heap) self force dt res h' :
  apply_force self force dt h = (res, h') ->
  h' = h ∨
  ∃ o, h !! self = Some o ∧ fixed o = false ∧ _attached_to o = None ∧
       (mass o <=? 0)%float = false ∧
       res = OK tt ∧ h' = <[self := accelerate o force dt]> h.
Proof.
  destruct (h !! self) as [o|] eqn:Hs.
  - rewrite (apply_force_run _ _ _ _ _ Hs). unfold is_attached.
    destruct (fixed o) eqn:Hf; cbn [orb]; [left; congruence|].
    destruct (_attached_to o) as [t|] eqn:Ha.
    { rewrite bool_decide_eq_true_2 by discriminate. cbn [orb]. left; congruence. }
    rewrite bool_decide_eq_false_2 by (intros Hn; now apply Hn). cbn [orb].
    destruct (mass o <=? 0)%float eqn:Hm; [left; congruence|].
    intros [= <- <-]. right. exists o. rewrite Ha. auto 10.
  - unfold apply_force. erewrite bind_raise by (unfold load; now rewrite Hs).
    left; congruence.
Qed.

Lemma integrate_cases (h : heap) self dt res h' :
  integrate self dt h = (res, h') ->
  h' = h ∨
  (∃ o, h !! self = Some o ∧ _attached_to o = None ∧ fixed o = false ∧
        res = OK tt ∧ h' = <[self := euler o dt]> h) ∨
  (∃ o target t attach_point,
        h !! self = Some o ∧ _attached_to o = Some target ∧ h !! target = Some t ∧
        attach_point_of t (part_or_center (_attached_part o)) = OK attach_point ∧
        res = OK tt ∧ h' = <[self := follow attach_point (velocity t) o]> h).
Proof.
  destruct (h !! self) as [o|] eqn:Hs.
  - destruct (_attached_to o) as [target|] eqn:Ha.
    + destruct (h !! target) as [t|] eqn:Ht.
      * destruct (attach_point_of t (part_or_center (_attached_part o)))
          as [ap|e] eqn:Hp.
        -- rewrite (integrate_attached _ _ _ _ _ _ _ Hs Ha Ht Hp).
           intros [= <- <-]. right; right. exists o, target, t, ap. auto 10.
        -- rewrite (integrate_attached_raise _ _ _ _ _ _ _ Hs Ha Ht Hp).
           left; congruence.
      * unfold integrate. run. rewrite Ha.
        erewrite bind_raise
          by (unfold get_attach_point;
              erewrite bind_raise by (unfold load; now rewrite Ht); reflexivity).
        left; congruence.
    + rewrite (integrate_free _ _ _ _ Hs Ha).
      destruct (fixed o) eqn:Hf; [left; congruence|].
      intros [= <- <-]. right; left. exists o. auto 10.
  - unfold integrate. erewrite bind_raise by (unfold load; now rewrite Hs).
    left; congruence.
Qed.

Lemma attach_to_cases (h : heap) self target target_part res h' :
  attach_to self target target_part h = (res, h') ->
  (h' = h ∧ ∃ e, res = Raise e) ∨
  ∃ o tgt t attach_point,
    target = Some tgt ∧ h !! self = Some o ∧ h !! tgt = Some t ∧
    attach_point_of t target_part = OK attach_point ∧
    res = OK tt ∧ h' = <[self := attached o tgt target_part attach_point]> h.
Proof.
  destruct target as [tgt|]; [|rewrite attach_to_none; intros [= <- <-]; eauto].
  destruct (h !! tgt) as [t|] eqn:Ht.
  - destruct (attach_point_of t target_part) as [ap|e] eqn:Hp.
    + destruct (h !! self) as [o|] eqn:Hs.
      * rewrite (attach_to_run _ _ _ _ _ _ _ Hs Ht Hp). intros [= <- <-].
        right. exists o, tgt, t, ap. auto 10.
      * unfold attach_to. run.
        erewrite bind_raise by (unfold load; now rewrite Hs).
        intros [= <- <-]; eauto.
    + rewrite (attach_to_raise _ _ _ _ _ _ Ht Hp). intros [= <- <-]; eauto.
  - unfold attach_to.
    erewrite bind_raise
      by (unfold get_attach_point;
          erewrite bind_raise by (unfold load; now rewrite Ht); reflexivity).
    intros [= <- <-]; eauto.
Qed.

Lemma detach_cases (h : heap) self res h' :
  detach self h = (res, h') ->
  (h' = h ∧ ∃ e, res = Raise e) ∨
  (h' = h ∧ res = OK tt ∧ ∃ o, h !! self = Some o ∧ _attached_to o = None) ∨
  ∃ o target t,
    h !! self = Some o ∧ _attached_to o = Some target ∧ h !! target = Some t ∧
    res = OK tt ∧ h' = <[self := detached o (velocity t)]> h.
Proof.
  destruct (h !! self) as [o|] eqn:Hs.
  - destruct (_attached_to o) as [target|] eqn:Ha.
    + destruct (h !! target) as [t|] eqn:Ht.
      * rewrite (detach_attached _ _ _ _ _ Hs Ha Ht). intros [= <- <-].
        right; right. exists o, target, t. auto 10.
      * unfold detach. run. rewrite Ha.
        erewrite bind_raise by (unfold load; now rewrite Ht).
        intros [= <- <-]. left; eauto.
    + rewrite (detach_free _ _ _ Hs Ha). intros [= <- <-]. right; left. eauto.
  - unfold detach. erewrite bind_raise by (unfold load; now rewrite Hs).
    intros [= <- <-]. left; eauto.
Qed.

(** A method assigns to its own object only. *)
Lemma apply_force_frame (h : heap) self force dt res h' r :
  apply_force self force dt h = (res, h') -> r ≠ self -> h' !! r = h !! r.
Proof.
  intros H Hr. apply apply_force_cases in H as [->|(o & _ & _ & _ & _ & _ & ->)];
    [reflexivity|]. now rewrite lookup_insert_ne.
Qed.

Lemma integrate_frame (h : heap) self dt res h' r :
  integrate self dt h = (res, h') -> r ≠ self -> h' !! r = h !! r.
Proof.
  intros H Hr.
  apply integrate_cases in H
    as [->|[(o & _ & _ & _ & _ & ->)|(o & tg & t & ap & _ & _ & _ & _ & _ & ->)]];
    [reflexivity| |]; now rewrite lookup_insert_ne.
Qed.

Lemma attach_to_frame (h : heap) self target target_part res h' r :
  attach_to self target target_part h = (res, h') -> r ≠ self -> h' !! r = h !! r.
Proof.
  intros H Hr.
  apply attach_to_cases in H
    as [[-> _]|(o & tg & t & ap & _ & _ & _ & _ & _ & ->)];
    [reflexivity|]. now rewrite lookup_insert_ne.
Qed.

Lemma detach_frame (h : heap) self res h' r :
  detach self h = (res, h') -> r ≠ self -> h' !! r = h !! r.
Proof.
  intros H Hr.
  apply detach_cases in H
    as [[-> _]|[[-> _]|(o & tg & t & _ & _ & _ & _ & ->)]];
    [reflexivity..|]. now rewrite lookup_insert_ne.
Qed.

(** ** apply_force *)

(** C5: apply_force leaves the whole store as it is when the object is
    attached, or fixed, or has mass <= 0, and raises nothing; otherwise it
    replaces the object's velocity by velocity + (force / mass) * dt,
    componentwise, and changes nothing else. *)
Theorem apply_force_spec (h : heap) (self : nat) (o : PhysicsObject)
    (force : Vector2) (dt : float) :
  h !! self = Some o ->
  (is_attached o = true ∨ fixed o = true ∨ (mass o <=? 0)%float = true ->
     apply_force self force dt h = (OK tt, h)) ∧
  (is_attached o = false -> fixed o = false -> (mass o <=? 0)%float = false ->
     ∃ o', apply_force self force dt h = (OK tt, <[self := o']> h) ∧
           velocity o' = ((velocity o).1 + force.1 / mass o * dt,
                          (velocity o).2 + force.2 / mass o * dt)%float ∧
           set_velocity (velocity o) o' = o).
Proof.
  intros Hs. rewrite (apply_force_run _ _ _ _ _ Hs). split.
  - intros [-> | [-> | ->]]; now rewrite ?orb_true_r.
  - intros -> -> ->. cbn [orb]. exists (accelerate o force dt).
    repeat split. now destruct o.
Qed.

Lemma apply_force_spec_witness :
  ∃ o', apply_force ball (2, 0)%float 0.5 demo = (OK tt, <[ball := o']> demo) ∧
        velocity o' = (1, 0)%float.
Proof.
  destruct (proj2 (apply_force_spec demo ball (Ball_new (1, 0)%float v_zero 1 0.2)
                     (2, 0)%float 0.5 eq_refl) eq_refl eq_refl eq_refl)
    as (o' & Hrun & Hv & _).
  exists o'. split; [exact Hrun | exact Hv].
Defined.

(** ** attach_to: failures *)

(** C10: when attach_to raises -- the target is None, or the target has no
    attach point of that name -- the store it leaves is the store it was
    given: no attribute of the attaching object (or of any other) has been
    assigned. *)
Theorem attach_to_failure_atomic (h : heap) (self : nat) (target_part : string) :
  attach_to self None target_part h =
    (Raise (ValueError "target must be a PhysicsObject"), h) ∧
  (∀ target t e,
     h !! target = Some t -> attach_point_of t target_part = Raise e ->
     attach_to self (Some target) target_part h = (Raise e, h)) ∧
  (∀ target e h',
     attach_to self target target_part h = (Raise e, h') -> h' = h).
Proof.
  split; [reflexivity|]. split.
  - intros target t e Ht Hp. exact (attach_to_raise _ _ _ _ _ _ Ht Hp).
  - intros target e h' H.
    apply attach_to_cases in H as [[-> _]|(o & tg & t & ap & _ & _ & _ & _ & Hr & _)];
      [reflexivity | discriminate].
Qed.

Lemma attach_to_failure_atomic_witness :
  attach_to ball (Some anchor) "top_left" demo =
    (Raise (ValueError "Anchor has no attach point named 'top_left'"), demo).
Proof.
  exact (proj1 (proj2 (attach_to_failure_atomic demo ball "top_left"))
           anchor (Anchor_new (0, 0)%float) _ eq_refl eq_refl).
Defined.

(** C7: asking an object for an attach point its class does not name raises
    ValueError (the spec's UnknownAttachPoint) with the message
    "<class> has no attach point named '<part>'", naming the class and the
    requested point; Ball.get_attach_point("anchor") raises; and attach_to
    raises the same exception, leaving the store as it was.  A name the
    class does know yields a point. *)
Theorem unknown_attach_point_raises (h : heap) (r : nat) (o : PhysicsObject)
    (part : string) :
  h !! r = Some o ->
  (part ∉ attach_point_names (cls o) ->
     let e := ValueError (class_name (cls o) ++ " has no attach point named '"
                            ++ part ++ "'") in
     get_attach_point r part h = (Raise e, h) ∧
     ∀ self, attach_to self (Some r) part h = (Raise e, h)) ∧
  (part ∈ attach_point_names (cls o) ->
     ∃ p, get_attach_point r part h = (OK p, h)) ∧
  (∀ radius, cls o = Ball radius ->
     get_attach_point r "anchor" h =
       (Raise (ValueError "Ball has no attach point named 'anchor'"), h)).
Proof.
  intros Hr. split; [|split].
  - intros Hn e. split.
    + rewrite (get_attach_point_run _ _ _ _ Hr).
      now rewrite (attach_point_of_unknown _ _ Hn).
    + intros self. apply (attach_to_raise _ _ _ _ _ _ Hr).
      exact (attach_point_of_unknown _ _ Hn).
  - intros Hin. destruct (attach_point_of_known _ _ Hin) as [p Hp].
    exists p. rewrite (get_attach_point_run _ _ _ _ Hr). now rewrite Hp.
  - intros radius Hc. rewrite (get_attach_point_run _ _ _ _ Hr).
    unfold attach_point_of. now rewrite Hc.
Qed.

Lemma unknown_attach_point_raises_witness :
  get_attach_point ball "anchor" demo =
    (Raise (ValueError "Ball has no attach point named 'anchor'"), demo).
Proof.
  refine (proj1 (proj1 (unknown_attach_point_raises demo ball
                          (Ball_new (1, 0)%float v_zero 1 0.2) "anchor" eq_refl) _)).
  apply not_elem_of_cons. split; [discriminate | apply not_elem_of_nil].
Defined.

(** ** detach *)

(** C3: detach on an object that is not attached changes nothing.  On an
    attached object it copies the target's velocity as it is at the call,
    clears the three attachment attributes, sets [fixed] to the saved value
    when there is one and to False otherwise, clears the saved value, and
    touches nothing else; what the target does afterwards (integrate,
    apply_force) leaves the detached object, velocity included, as it is. *)
Theorem detach_spec (h : heap) (self : nat) (o : PhysicsObject) :
  h !! self = Some o ->
  (_attached_to o = None -> detach self h = (OK tt, h)) ∧
  (∀ target t,
     _attached_to o = Some target -> h !! target = Some t ->
     ∃ o',
       detach self h = (OK tt, <[self := o']> h) ∧
       velocity o' = velocity t ∧
       _attached_to o' = None ∧ _attached_part o' = None ∧
       _attached_offset o' = None ∧
       fixed o' = match _previous_fixed_state o with Some f => f | None => false end ∧
       _previous_fixed_state o' = None ∧
       (position o', mass o', color o', cls o') = (position o, mass o, color o, cls o) ∧
       ∀ dt force res h2,
         target ≠ self ->
         integrate target dt (<[self := o']> h) = (res, h2) ∨
         apply_force target force dt (<[self := o']> h) = (res, h2) ->
         h2 !! self = Some o').
Proof.
  intros Hs. split.
  - intros Ha. exact (detach_free _ _ _ Hs Ha).
  - intros target t Ha Ht. exists (detached o (velocity t)).
    split; [exact (detach_attached _ _ _ _ _ Hs Ha Ht)|].
    repeat (split; [reflexivity|]).
    intros dt force res h2 Hne [H|H].
    + rewrite (integrate_frame _ _ _ _ _ _ H) by congruence. apply lookup_insert_eq.
    + rewrite (apply_force_frame _ _ _ _ _ _ _ H) by congruence. apply lookup_insert_eq.
Qed.

Lemma detach_spec_witness :
  ∃ o', detach ball demo_attached = (OK tt, <[ball := o']> demo_attached) ∧
        velocity o' = (0.5, 0)%float ∧ fixed o' = false ∧ _attached_to o' = None.
Proof.
  destruct (proj2 (detach_spec demo_attached ball _ eq_refl) anchor _ eq_refl eq_refl)
    as (o' & Hrun & Hv & Ha & _ & _ & Hf & _).
  exists o'. repeat split; assumption.
Defined.

(** ** attach_to on an attached object *)

Lemma attach_to_total (h : heap) self o target t target_part :
  h !! self = Some o -> h !! target = Some t ->
  target_part ∈ attach_point_names (cls t) ->
  ∃ attach_point,
    attach_point_of t target_part = OK attach_point ∧
    attach_to self (Some target) target_part h =
      (OK tt, <[self := attached o target target_part attach_point]> h).
Proof.
  intros Hs Ht Hin. destruct (attach_point_of_known _ _ Hin) as [ap Hp].
  exists ap. split; [assumption|]. exact (attach_to_run _ _ _ _ _ _ _ Hs Ht Hp).
Qed.

(** Replacing an object by one of the same class keeps every reference
    live and every class as it was. *)
Lemma lookup_same_class (h : heap) self o o' r t :
  h !! self = Some o -> cls o' = cls o -> h !! r = Some t ->
  ∃ t', <[self := o']> h !! r = Some t' ∧ cls t' = cls t.
Proof.
  intros Hs Hc Hr. destruct (decide (r = self)) as [->|Hne].
  - exists o'. rewrite lookup_insert_eq. split; congruence.
  - exists t. rewrite lookup_insert_ne by congruence. auto.
Qed.

Lemma detach_attached_total (h : heap) self o target :
  h !! self = Some o -> _attached_to o = Some target -> is_Some (h !! target) ->
  ∃ v, detach self h = (OK tt, <[self := detached o v]> h).
Proof.
  intros Hs Ha [t Ht]. exists (velocity t). exact (detach_attached _ _ _ _ _ Hs Ha Ht).
Qed.

(** C4: attach_to on an object that is already attached (so its [fixed] is
    the forced True) saves that True as the previous state, and the detach
    that follows sets [fixed] to True.  From a free object: attach, attach
    again, detach ends with [fixed] True whatever [fixed] was before the
    first attach. *)
Theorem reattach_quirk (h : heap) (self : nat) (o : PhysicsObject)
    (target : nat) (t : PhysicsObject) (target_part : string) :
  h !! self = Some o -> h !! target = Some t ->
  target_part ∈ attach_point_names (cls t) ->
  (_attached_to o ≠ None -> fixed o = true ->
     ∃ o1 o2,
       attach_to self (Some target) target_part h = (OK tt, <[self := o1]> h) ∧
       _previous_fixed_state o1 = Some true ∧
       detach self (<[self := o1]> h) = (OK tt, <[self := o2]> h) ∧
       fixed o2 = true ∧ _attached_to o2 = None) ∧
  (∀ target0 t0 part0,
     _attached_to o = None -> h !! target0 = Some t0 ->
     part0 ∈ attach_point_names (cls t0) ->
     ∃ o1 o2 o3,
       attach_to self (Some target0) part0 h = (OK tt, <[self := o1]> h) ∧
       attach_to self (Some target) target_part (<[self := o1]> h) =
         (OK tt, <[self := o2]> h) ∧
       _previous_fixed_state o1 = Some (fixed o) ∧
       _previous_fixed_state o2 = Some true ∧
       detach self (<[self := o2]> h) = (OK tt, <[self := o3]> h) ∧
       fixed o3 = true ∧ _attached_to o3 = None).
Proof.
  intros Hs Ht Hin. split.
  - intros _ Hf.
    destruct (attach_to_total _ _ _ _ _ _ Hs Ht Hin) as (ap & _ & Hrun).
    set (o1 := attached o target target_part ap) in *.
    destruct (lookup_same_class h self o o1 target t Hs eq_refl Ht) as (t' & Ht' & _).
    destruct (detach_attached_total (<[self := o1]> h) self o1 target
                (lookup_insert_eq _ _ _) eq_refl (ex_intro _ _ Ht')) as [v Hd].
    rewrite insert_insert_eq in Hd.
    exists o1, (detached o1 v). repeat split; try assumption.
    + cbn. now rewrite Hf.
  - intros target0 t0 part0 _ Ht0 Hin0.
    destruct (attach_to_total _ _ _ _ _ _ Hs Ht0 Hin0) as (ap0 & _ & Hrun0).
    set (o1 := attached o target0 part0 ap0) in *.
    destruct (lookup_same_class h self o o1 target t Hs eq_refl Ht)
      as (t' & Ht' & Hc').
    assert (target_part ∈ attach_point_names (cls t')) as Hin' by now rewrite Hc'.
    destruct (attach_to_total (<[self := o1]> h) self o1 target t' target_part
                (lookup_insert_eq _ _ _) Ht' Hin') as (ap & _ & Hrun).
    rewrite insert_insert_eq in Hrun.
    set (o2 := attached o1 target target_part ap) in *.
    destruct (lookup_same_class h self o o2 target t Hs eq_refl Ht) as (t'' & Ht'' & _).
    destruct (detach_attached_total (<[self := o2]> h) self o2 target
                (lookup_insert_eq _ _ _) eq_refl (ex_intro _ _ Ht'')) as [v Hd].
    rewrite insert_insert_eq in Hd.
    exists o1, o2, (detached o2 v). repeat split; assumption.
Qed.

Lemma reattach_quirk_witness :
  ∃ o1 o2,
    attach_to ball (Some anchor) "center" demo_attached =
      (OK tt, <[ball := o1]> demo_attached) ∧
    _previous_fixed_state o1 = Some true ∧
    detach ball (<[ball := o1]> demo_attached) = (OK tt, <[ball := o2]> demo_attached) ∧
    fixed o2 = true ∧ _attached_to o2 = None.
Proof.
  refine (proj1 (reattach_quirk demo_attached ball _ anchor _ "center"
                   eq_refl eq_refl _) _ eq_refl).
  - apply elem_of_cons. right. apply elem_of_cons. left. reflexivity.
  - discriminate.
Defined.

(** ** Properties kept by a whole method *)

Lemma preserves_bind {A B : Type} (P : heap -> Prop) (m : M A) (k : A -> M B) :
  preserves P m -> (∀ x, preserves P (k x)) -> preserves P (m ≫= k).
Proof.
  intros Hm Hk h res h' HP. unfold mbind, M_bind.
  destruct (m h) as [[x|e] h1] eqn:Hmh.
  - apply (Hk x). exact (Hm _ _ _ HP Hmh).
  - intros [= <- <-]. exact (Hm _ _ _ HP Hmh).
Qed.

Lemma preserves_ret {A : Type} (P : heap -> Prop) (x : A) : preserves P (mret x).
Proof. intros h res h' HP [= <- <-]. exact HP. Qed.

Lemma preserves_lift {A : Type} (P : heap -> Prop) (r : result A) :
  preserves P (lift r).
Proof. intros h res h' HP [= <- <-]. exact HP. Qed.

Lemma preserves_load (P : heap -> Prop) (r : nat) : preserves P (load r).
Proof.
  intros h res h' HP. unfold load.
  destruct (h !! r); intros [= <- <-]; exact HP.
Qed.

Lemma preserves_for_each {A : Type} (P : heap -> Prop) (f : A -> M unit) l :
  (∀ x, preserves P (f x)) -> preserves P (for_each f l).
Proof.
  intros Hf. induction l as [|x l IH]; cbn [for_each].
  - apply preserves_ret.
  - apply preserves_bind; [apply Hf | intros _; exact IH].
Qed.

(** A spring acts on the store through [apply_force] alone. *)
Lemma preserves_apply (hypot : float -> float -> float) (P : heap -> Prop) c dt :
  (∀ self force, preserves P (apply_force self force dt)) ->
  preserves P (apply hypot c dt).
Proof.
  intros Hf. unfold apply.
  apply preserves_bind; [apply preserves_load | intros ob].
  apply preserves_bind; [apply preserves_load | intros oa].
  destruct (PrimFloat.eqb _ _); [apply preserves_ret|].
  apply preserves_bind; [apply preserves_lift | intros dx].
  apply preserves_bind; [apply preserves_lift | intros dy].
  apply preserves_bind; [apply preserves_lift | intros r].
  apply preserves_bind; [apply Hf | intros _; apply Hf].
Qed.

Lemma preserves_step (hypot : float -> float -> float) (P : heap -> Prop)
    objects constraints dt :
  (∀ self force, preserves P (apply_force self force dt)) ->
  (∀ self, preserves P (integrate self dt)) ->
  preserves P (step hypot objects constraints dt).
Proof.
  intros Hf Hi. unfold step.
  apply preserves_bind; [|intros _; now apply preserves_for_each].
  apply preserves_for_each. intros c. now apply preserves_apply.
Qed.

(** ** fixed while attached *)

Lemma fixed_while_attached_insert (h : heap) self o o' :
  fixed_while_attached h -> h !! self = Some o ->
  (_attached_to o' ≠ None -> fixed o' = true) ->
  fixed_while_attached (<[self := o']> h).
Proof.
  intros Hinv Hs Ho' r x. destruct (decide (r = self)) as [->|Hne].
  - rewrite lookup_insert_eq. intros [= <-]. exact Ho'.
  - rewrite lookup_insert_ne by congruence. apply Hinv.
Qed.

Lemma apply_force_fixed_while_attached self force dt :
  preserves fixed_while_attached (apply_force self force dt).
Proof.
  intros h res h' Hinv H.
  apply apply_force_cases in H as [->|(o & Hs & _ & _ & _ & _ & ->)]; [assumption|].
  apply (fixed_while_attached_insert _ _ o); [assumption..|]. exact (Hinv _ _ Hs).
Qed.

Lemma integrate_fixed_while_attached self dt :
  preserves fixed_while_attached (integrate self dt).
Proof.
  intros h res h' Hinv H.
  apply integrate_cases in H
    as [->|[(o & Hs & _ & _ & _ & ->)|(o & tg & t & ap & Hs & _ & _ & _ & _ & ->)]];
    [assumption| |];
    (apply (fixed_while_attached_insert _ _ o); [assumption..|]); exact (Hinv _ _ Hs).
Qed.

Lemma attach_to_fixed_while_attached self target target_part :
  preserves fixed_while_attached (attach_to self target target_part).
Proof.
  intros h res h' Hinv H.
  apply attach_to_cases in H
    as [[-> _]|(o & tg & t & ap & _ & Hs & _ & _ & _ & ->)]; [assumption|].
  apply (fixed_while_attached_insert _ _ o); [assumption..|]. reflexivity.
Qed.

Lemma detach_fixed_while_attached self :
  preserves fixed_while_attached (detach self).
Proof.
  intros h res h' Hinv H.
  apply detach_cases in H
    as [[-> _]|[[-> _]|(o & tg & t & Hs & _ & _ & _ & ->)]]; [assumption..|].
  apply (fixed_while_attached_insert _ _ o); [assumption..|].
  intros Hn. now contradiction Hn.
Qed.

(** C6: attach_to leaves its object attached with [fixed] True; and if
    every attached object of a store has [fixed] True, the same holds of the
    store left by apply_force, integrate, attach_to, detach, a spring's
    apply and step, whether they return or raise.  detach leaves its object
    without attachment. *)
Theorem fixed_while_attached_invariant (hypot : float -> float -> float)
    (h : heap) :
  (∀ self target target_part h',
     attach_to self target target_part h = (OK tt, h') ->
     ∃ o', h' !! self = Some o' ∧ _attached_to o' = target ∧ fixed o' = true) ∧
  (∀ self h',
     detach self h = (OK tt, h') ->
     ∀ o', h' !! self = Some o' -> _attached_to o' = None) ∧
  (fixed_while_attached h ->
   ∀ res h',
     ((∃ self force dt, apply_force self force dt h = (res, h')) ∨
      (∃ self dt, integrate self dt h = (res, h')) ∨
      (∃ self target target_part, attach_to self target target_part h = (res, h')) ∨
      (∃ self, detach self h = (res, h')) ∨
      (∃ c dt, apply hypot c dt h = (res, h')) ∨
      (∃ objects constraints dt, step hypot objects constraints dt h = (res, h'))) ->
     fixed_while_attached h').
Proof.
  split; [|split].
  - intros self target target_part h' H.
    apply attach_to_cases in H
      as [[_ [e He]]|(o & tg & t & ap & -> & _ & _ & _ & _ & ->)]; [discriminate|].
    eexists. rewrite lookup_insert_eq. repeat split.
  - intros self h' H o' Hs'.
    apply detach_cases in H
      as [[_ [e He]]|[(-> & _ & o & Hs & Ha)|(o & tg & t & _ & _ & _ & _ & ->)]].
    + discriminate.
    + congruence.
    + rewrite lookup_insert_eq in Hs'. now injection Hs' as <-.
  - intros Hinv res h'
      [(self & force & dt & H)|[(self & dt & H)|[(self & tg & part & H)|
       [(self & H)|[(c & dt & H)|(objs & cs & dt & H)]]]]].
    + exact (apply_force_fixed_while_attached _ _ _ _ _ _ Hinv H).
    + exact (integrate_fixed_while_attached _ _ _ _ _ Hinv H).
    + exact (attach_to_fixed_while_attached _ _ _ _ _ _ Hinv H).
    + exact (detach_fixed_while_attached _ _ _ _ Hinv H).
    + refine (preserves_apply hypot _ c dt _ _ _ _ Hinv H).
      intros; apply apply_force_fixed_while_attached.
    + refine (preserves_step hypot _ objs cs dt _ _ _ _ _ Hinv H).
      * intros; apply apply_force_fixed_while_attached.
      * intros; apply integrate_fixed_while_attached.
Qed.

Lemma fixed_while_attached_demo_attached : fixed_while_attached demo_attached.
Proof.
  intros r o. unfold demo_attached.
  rewrite lookup_insert_Some. intros [[_ <-]|[_ H]]; [intros Hn; now contradiction Hn|].
  apply lookup_insert_Some in H as [[_ <-]|[_ H]]; [reflexivity|].
  now rewrite lookup_empty in H.
Defined.

Lemma fixed_while_attached_invariant_witness :
  fixed_while_attached
    (step hypot_sqrt [anchor; ball] [] 0.001 demo_attached).2.
Proof.
  refine (proj2 (proj2 (fixed_while_attached_invariant hypot_sqrt demo_attached))
            fixed_while_attached_demo_attached (OK tt) _ _).
  do 5 right. exists [anchor; ball], [], 0.001%float. reflexivity.
Defined.

(** ** Attached objects are kinematic *)

(** apply_force on an attached object changes nothing, so no method that
    only applies forces changes an attached object. *)
Lemma apply_force_keeps_attached (h : heap) r o self force dt :
  _attached_to o ≠ None ->
  preserves (λ h, h !! r = Some o) (apply_force self force dt).
Proof.
  intros Ha h0 res h' Hr H.
  apply apply_force_cases in H as [->|(o0 & Hs & _ & Hfree & _ & _ & ->)];
    [assumption|].
  destruct (decide (r = self)) as [->|Hne].
  - assert (o0 = o) as -> by congruence. contradiction.
  - now rewrite lookup_insert_ne by congruence.
Qed.

(** ** Attachment: what stays fixed while attached *)

(** No class answers to the empty name, so the name an attachment records
    is the name integrate uses. *)
Lemma attach_point_of_known_name (t : PhysicsObject) part p :
  attach_point_of t part = OK p -> part_or_center (Some part) = part.
Proof.
  intros Hp. unfold part_or_center.
  destruct (String.eqb_spec part "") as [->|]; [|reflexivity].
  rewrite attach_point_of_unknown in Hp; [discriminate|].
  destruct (cls t); cbn [attach_point_names];
    repeat (apply not_elem_of_cons; split; [discriminate|]); apply not_elem_of_nil.
Qed.

Lemma attachment_is_evolves self target target_part offset target_class h h' :
  attachment_is self target target_part offset target_class h ->
  evolves self h h' ->
  attachment_is self target target_part offset target_class h'.
Proof.
  intros Hinit Hev. induction Hev as [|h1 h2 dt _ IH Hint|h1 h2 _ IH [Hself Hcls]].
  - exact Hinit.
  - destruct IH as (o & t & Hs & Ha & Hp & Hoff & Ht & Hc).
    apply integrate_cases in Hint
      as [->|[(o0 & Hs0 & Ha0 & _)|(o0 & tg & t0 & ap & Hs0 & _ & _ & _ & _ & ->)]].
    + exists o, t. auto 10.
    + congruence.
    + assert (o0 = o) as -> by congruence.
      exists (follow ap (velocity t0) o). rewrite lookup_insert_eq.
      destruct (decide (target = self)) as [->|Hne].
      * eexists. rewrite lookup_insert_eq.
        repeat split; try assumption. cbn. congruence.
      * exists t. rewrite lookup_insert_ne by congruence. auto 10.
  - destruct IH as (o & t & Hs & Ha & Hp & Hoff & Ht & Hc).
    destruct (Hcls _ _ Ht) as (t' & Ht' & Hc').
    exists o, t'. rewrite Hself. repeat split; try assumption. congruence.
Qed.

(** C1 (amended): attach_to records offset = position - attach point once;
    through any number of integrate calls on the object, with the rest of
    the world changing in between, the recorded target, name and offset stay
    the same, and every integrate call returns having put the object at
    exactly v_add(attach point, offset), the attach point being the target's
    at that call. *)
Theorem attachment_keeps_offset (h0 : heap) (self : nat) (o : PhysicsObject)
    (target : nat) (t : PhysicsObject) (target_part : string)
    (attach_point : Vector2) :
  h0 !! self = Some o -> h0 !! target = Some t ->
  attach_point_of t target_part = OK attach_point ->
  let offset := v_sub (position o) attach_point in
  ∃ h1,
    attach_to self (Some target) target_part h0 = (OK tt, h1) ∧
    ∀ h, evolves self h1 h ->
      ∃ o' t' attach_point',
        h !! self = Some o' ∧ _attached_to o' = Some target ∧
        _attached_part o' = Some target_part ∧ _attached_offset o' = Some offset ∧
        h !! target = Some t' ∧ attach_point_of t' target_part = OK attach_point' ∧
        ∀ dt, ∃ o'',
          integrate self dt h = (OK tt, <[self := o'']> h) ∧
          position o'' = v_add attach_point' offset ∧
          _attached_offset o'' = Some offset.
Proof.
  intros Hs Ht Hp offset.
  eexists. split; [exact (attach_to_run _ _ _ _ _ _ _ Hs Ht Hp)|].
  intros h Hev.
  assert (attachment_is self target target_part offset (class_name (cls t))
            (<[self := attached o target target_part attach_point]> h0)) as Hinit.
  { destruct (lookup_same_class h0 self o (attached o target target_part attach_point)
                target t Hs eq_refl Ht) as (t' & Ht' & Hc').
    exists (attached o target target_part attach_point), t'.
    rewrite lookup_insert_eq. repeat split; try assumption. now rewrite Hc'. }
  destruct (attachment_is_evolves _ _ _ _ _ _ _ Hinit Hev)
    as (o' & t' & Hs' & Ha' & Hp' & Hoff' & Ht' & Hc').
  destruct (attach_point_of_same_class t t' target_part attach_point Hp Hc')
    as [ap' Hap'].
  exists o', t', ap'. repeat split; try assumption.
  intros dt. exists (follow ap' (velocity t') o').
  split.
  - apply (integrate_attached _ _ _ _ _ _ _ Hs' Ha' Ht').
    rewrite Hp'. now rewrite (attach_point_of_known_name _ _ _ Hap').
  - unfold follow, followed_position. rewrite Hoff'. split; [reflexivity|assumption].
Qed.

Lemma attachment_keeps_offset_witness :
  ∃ h1,
    attach_to follower (Some mover) "center" rigidity_scene = (OK tt, h1) ∧
    ∀ h, evolves follower h1 h ->
      ∃ o', h !! follower = Some o' ∧
            _attached_offset o' = Some (0.19999999999999998, 0)%float.
Proof.
  destruct (attachment_keeps_offset rigidity_scene follower _ mover _ "center"
              (0.1, 0)%float eq_refl eq_refl eq_refl) as (h1 & Hrun & Hall).
  exists h1. split; [exact Hrun|].
  intros h Hev. destruct (Hall h Hev) as (o' & t' & ap' & Hs & _ & _ & Hoff & _).
  exists o'. split; [exact Hs | exact Hoff].
Defined.

(** Exact rigidity fails once the target has moved.

    By rounding, right after the follower's own integrate: the offset
    recorded at attach time is 0.3 - 0.1 = 0.19999999999999998; with the
    mover at 0.7 the follower is put at
    0.7 + 0.19999999999999998 = 0.8999999999999999, and
    0.8999999999999999 - 0.7 = 0.19999999999999996 is not the recorded offset.

    By the order of a step, in exact numbers: the follower, integrated
    first, is put at (0, 0) + (1, 0); the mover then moves to (1, 0); after
    the step position - attach point is (0, 0), the recorded offset (1, 0). *)
Lemma attachment_rigidity_counterexample :
  ((rigidity_run rigidity_scene).1 = OK tt ∧
   _attached_offset <$> (rigidity_run rigidity_scene).2 !! follower =
     Some (Some (0.19999999999999998, 0)%float) ∧
   (λ t, attach_point_of t "center") <$> (rigidity_run rigidity_scene).2 !! mover =
     Some (OK (0.7, 0)%float) ∧
   position <$> (rigidity_run rigidity_scene).2 !! follower =
     Some (0.8999999999999999, 0)%float ∧
   v_sub (0.8999999999999999, 0)%float (0.7, 0)%float =
     (0.19999999999999996, 0)%float ∧
   v_eqb (v_sub (0.8999999999999999, 0)%float (0.7, 0)%float)
         (0.19999999999999998, 0)%float = false) ∧
  ((lagging_run lagging_scene).1 = OK tt ∧
   _attached_offset <$> (lagging_run lagging_scene).2 !! follower =
     Some (Some (1, 0)%float) ∧
   (λ t, attach_point_of t "center") <$> (lagging_run lagging_scene).2 !! mover =
     Some (OK (1, 0)%float) ∧
   position <$> (lagging_run lagging_scene).2 !! follower = Some (1, 0)%float ∧
   v_eqb (v_sub (1, 0)%float (1, 0)%float) (1, 0)%float = false).
Proof. repeat split; vm_compute; reflexivity. Qed.

(** ** IEEE arithmetic around zero

    Facts about binary64 operations, read off their specification on
    [spec_float]. *)

Lemma SFcompare_refl_finite s m e :
  SFcompare (S754_finite s m e) (S754_finite s m e) = Some Eq.
Proof.
  cbn. destruct s; rewrite Z.compare_refl, Pos.compare_cont_refl; reflexivity.
Qed.

Lemma is_zero_spec x : is_zero x = SFis_zero (Prim2SF x).
Proof.
  unfold is_zero. rewrite FloatAxioms.eqb_spec.
  change (Prim2SF zero) with (S754_zero false).
  destruct (Prim2SF x) as [s|s| |s m e]; try destruct s; reflexivity.
Qed.

Lemma is_nan_spec x : is_nan x = SFis_nan (Prim2SF x).
Proof.
  unfold is_nan. rewrite FloatAxioms.eqb_spec. unfold SFeqb.
  destruct (Prim2SF x) as [s|s| |s m e]; try (destruct s; reflexivity); try reflexivity.
  now rewrite SFcompare_refl_finite.
Qed.

Lemma is_finite_spec x : is_finite x = SFis_finite (Prim2SF x).
Proof.
  unfold is_finite, is_infinity. rewrite is_nan_spec, FloatAxioms.eqb_spec, abs_spec.
  change (Prim2SF infinity) with (S754_infinity false).
  destruct (Prim2SF x) as [s|s| |s m e]; try destruct s; reflexivity.
Qed.

Ltac to_spec :=
  repeat first
    [ rewrite is_zero_spec in * | rewrite is_finite_spec in *
    | rewrite is_nan_spec in * | rewrite leb_spec in *
    | rewrite add_spec in * | rewrite sub_spec in * | rewrite mul_spec in *
    | rewrite div_spec in * | rewrite opp_spec in * | rewrite abs_spec in * ];
  unfold SF64add, SF64sub, SF64mul, SF64div in *.

Lemma sub_diag_finite x : is_finite x = true -> (x - x)%float = 0%float.
Proof.
  intros H. apply Prim2SF_inj. revert H. to_spec.
  change (Prim2SF 0) with (S754_zero false).
  destruct (Prim2SF x) as [s|s| |s m e]; try discriminate; intros _.
  - now destruct s.
  - unfold SFsub. now rewrite Z.sub_diag.
Qed.

Lemma mul_finite_zero x y :
  is_finite x = true -> is_zero y = true -> is_zero (x * y) = true.
Proof.
  to_spec. destruct (Prim2SF x), (Prim2SF y); try discriminate; reflexivity.
Qed.

Lemma mul_zero_finite x y :
  is_zero x = true -> is_finite y = true -> is_zero (x * y) = true.
Proof.
  to_spec. destruct (Prim2SF x), (Prim2SF y); try discriminate; reflexivity.
Qed.

Lemma add_zero_zero x y :
  is_zero x = true -> is_zero y = true -> is_zero (x + y) = true.
Proof.
  to_spec. destruct (Prim2SF x) as [[]|?| |? ? ?], (Prim2SF y) as [[]|?| |? ? ?];
    try discriminate; reflexivity.
Qed.

Lemma sub_zero_zero x y :
  is_zero x = true -> is_zero y = true -> is_zero (x - y) = true.
Proof.
  to_spec. destruct (Prim2SF x) as [[]|?| |? ? ?], (Prim2SF y) as [[]|?| |? ? ?];
    try discriminate; reflexivity.
Qed.

Lemma opp_is_finite x : is_finite (- x) = is_finite x.
Proof. to_spec. now destruct (Prim2SF x). Qed.

Lemma opp_is_zero x : is_zero (- x) = is_zero x.
Proof. to_spec. now destruct (Prim2SF x). Qed.

Lemma is_zero_is_finite x : is_zero x = true -> is_finite x = true.
Proof. to_spec. now destruct (Prim2SF x). Qed.

Lemma div_zero_mass x m :
  is_zero x = true -> is_nan m = false -> (m <=? 0)%float = false ->
  is_zero (x / m) = true.
Proof.
  to_spec. change (Prim2SF 0) with (S754_zero false).
  destruct (Prim2SF x), (Prim2SF m) as [?|?| |? ? ?]; try discriminate; reflexivity.
Qed.

Lemma feq_refl x : feq x x.
Proof. now left. Qed.

Lemma feq_trans x y z : feq x y -> feq y z -> feq x z.
Proof. intros [->|[Hx Hy]] [->|[Hy' Hz]]; unfold feq; auto. Qed.

Lemma add_zero_feq p z : is_zero z = true -> feq (p + z) p.
Proof.
  intros Hz. destruct (is_zero p) eqn:Hp.
  - right. split; [now apply add_zero_zero | assumption].
  - left. apply Prim2SF_inj. to_spec.
    destruct (Prim2SF p) as [?|[]| |? ? ?], (Prim2SF z); try discriminate; reflexivity.
Qed.

Lemma sub_feq x x' y y' : feq x x' -> feq y y' -> feq (x - y) (x' - y').
Proof.
  intros [->|[Hx Hx']] [->|[Hy Hy']].
  - apply feq_refl.
  - destruct (is_zero x') eqn:Hx.
    + right. split; now apply sub_zero_zero.
    + left. apply Prim2SF_inj. to_spec.
      destruct (Prim2SF x') as [?|[]| |? ? ?], (Prim2SF y), (Prim2SF y');
        try discriminate; reflexivity.
  - destruct (is_zero y') eqn:Hy.
    + right. split; now apply sub_zero_zero.
    + left. apply Prim2SF_inj. to_spec.
      destruct (Prim2SF x), (Prim2SF x'), (Prim2SF y') as [?|[]| |? ? ?];
        try discriminate; reflexivity.
  - right. split; now apply sub_zero_zero.
Qed.

Lemma div_feq x x' d : feq x x' -> feq (x / d) (x' / d).
Proof.
  intros [->|[Hx Hx']]; [apply feq_refl|].
  destruct (is_zero (x / d)) eqn:Hq.
  - right. split; [exact Hq|]. revert Hq. to_spec.
    destruct (Prim2SF x), (Prim2SF x'), (Prim2SF d); try discriminate; reflexivity.
  - left. apply Prim2SF_inj. to_spec.
    destruct (Prim2SF x), (Prim2SF x'), (Prim2SF d) as [?|?| |? ? ?];
      try discriminate; reflexivity.
Qed.

Lemma abs_feq x x' : feq x x' -> abs x = abs x'.
Proof.
  intros [->|[Hx Hx']]; [reflexivity|]. apply Prim2SF_inj. to_spec.
  destruct (Prim2SF x), (Prim2SF x'); try discriminate; reflexivity.
Qed.

Lemma is_finite_feq x x' : feq x x' -> is_finite x = is_finite x'.
Proof.
  intros [->|[Hx Hx']]; [reflexivity|].
  now rewrite !is_zero_is_finite.
Qed.

Lemma is_zero_feq x x' : feq x x' -> is_zero x = is_zero x'.
Proof. intros [->|[Hx Hx']]; [reflexivity|]. now rewrite Hx, Hx'. Qed.

Lemma mul_abs_abs x : (abs x * abs x = x * x)%float.
Proof.
  apply Prim2SF_inj. to_spec. destruct (Prim2SF x) as [[]|[]| |[] ? ?]; reflexivity.
Qed.

(** ** RodSpring.apply *)

Lemma apply_run (hypot : float -> float -> float) (h : heap) c oa ob dt :
  h !! a c = Some oa -> h !! b c = Some ob ->
  apply hypot c dt h =
    if PrimFloat.eqb (v_len hypot (v_sub (position ob) (position oa))) 0
    then (OK tt, h)
    else match rest_length c with
         | None => (Raise TypeError, h)
         | Some r =>
             (_ ← apply_force (a c) (v_scale (spring_force hypot c oa ob r) (-1)) dt;
              apply_force (b c) (spring_force hypot c oa ob r) dt) h
         end.
Proof.
  intros Ha Hb. unfold apply. run.
  destruct (PrimFloat.eqb _ _) eqn:Hd; [reflexivity|].
  unfold lift. rewrite !(py_div_ok _ _ Hd). run.
  unfold rest_length_float. destruct (rest_length c) as [r|].
  - run. reflexivity.
  - reflexivity.
Qed.

Lemma apply_force_returns (h : heap) self force dt :
  is_Some (h !! self) ->
  ∃ h', apply_force self force dt h = (OK tt, h') ∧
        ∀ r, is_Some (h !! r) -> is_Some (h' !! r).
Proof.
  intros [o Hs]. rewrite (apply_force_run _ _ _ _ _ Hs).
  destruct (_ || _); eexists; (split; [reflexivity|]); [auto|].
  intros r Hr. destruct (decide (r = self)) as [->|Hne].
  - rewrite lookup_insert_eq. eauto.
  - now rewrite lookup_insert_ne by congruence.
Qed.

(** C9: when the distance between a spring's two objects compares equal to
    zero, apply returns at once and leaves the store as it was; this is the
    case when the two positions are the same finite point (math.hypot of two
    zeros being zero).  Whatever the store, apply never raises
    ZeroDivisionError: when the distance is not zero, both divisions by it
    return. *)
Theorem degenerate_distance (hypot : float -> float -> float) (h : heap)
    (c : RodSpring) (oa ob : PhysicsObject) (dt : float) :
  h !! a c = Some oa -> h !! b c = Some ob ->
  let delta := v_sub (position ob) (position oa) in
  let dist := v_len hypot delta in
  (PrimFloat.eqb dist 0 = true -> apply hypot c dt h = (OK tt, h)) ∧
  (position ob = position oa ->
   is_finite (position oa).1 = true -> is_finite (position oa).2 = true ->
   PrimFloat.eqb (hypot 0%float 0%float) 0 = true ->
   PrimFloat.eqb dist 0 = true ∧ apply hypot c dt h = (OK tt, h)) ∧
  (∀ res h', apply hypot c dt h = (res, h') -> res ≠ Raise ZeroDivisionError) ∧
  (PrimFloat.eqb dist 0 = false ->
   py_div delta.1 dist = OK (delta.1 / dist)%float ∧
   py_div delta.2 dist = OK (delta.2 / dist)%float).
Proof.
  intros Ha Hb delta dist.
  pose proof (apply_run hypot h c oa ob dt Ha Hb) as Hrun.
  fold delta in Hrun. fold dist in Hrun.
  assert (PrimFloat.eqb dist 0 = true -> apply hypot c dt h = (OK tt, h)) as Hzero.
  { intros Hd. now rewrite Hrun, Hd. }
  split; [exact Hzero|]. split; [|split].
  - intros Hpos Hf1 Hf2 Hh.
    assert (PrimFloat.eqb dist 0 = true) as Hd.
    { unfold dist, delta, v_len, v_sub. rewrite Hpos. cbn [fst snd].
      now rewrite !sub_diag_finite by assumption. }
    auto.
  - intros res h'. rewrite Hrun.
    destruct (PrimFloat.eqb dist 0); [intros [= <- _]; discriminate|].
    destruct (rest_length c) as [r|]; [|intros [= <- _]; discriminate].
    destruct (apply_force_returns h (a c)
                (v_scale (spring_force hypot c oa ob r) (-1)) dt
                (ex_intro _ _ Ha)) as (h1 & H1 & Hlive).
    rewrite (bind_ok _ _ _ _ _ H1).
    destruct (apply_force_returns h1 (b c) (spring_force hypot c oa ob r) dt
                (Hlive _ (ex_intro _ _ Hb))) as (h2 & H2 & _).
    rewrite H2. intros [= <- _]; discriminate.
  - intros Hd. now rewrite !(py_div_ok _ _ Hd).
Qed.

Lemma degenerate_distance_witness :
  apply hypot_sqrt (mkSpring 0 1 (Some 1%float) 100 0) 0.001 coincident_scene =
    (OK tt, coincident_scene).
Proof.
  exact (proj2 (proj1 (proj2
           (degenerate_distance hypot_sqrt coincident_scene
              (mkSpring 0 1 (Some 1%float) 100 0) _ _ 0.001%float eq_refl eq_refl))
           eq_refl eq_refl eq_refl eq_refl)).
Defined.

(** ** A spring at its rest length *)

Lemma apply_force_at_rest r p0 self force dt :
  is_zero force.1 = true -> is_zero force.2 = true -> is_finite dt = true ->
  preserves (λ h, at_rest h r p0) (apply_force self force dt).
Proof.
  intros Hf1 Hf2 Hdt h res h' Hrest H.
  apply apply_force_cases in H as [->|(o0 & Hs & _ & _ & Hm & _ & ->)];
    [assumption|].
  destruct (decide (r = self)) as [->|Hne].
  - destruct Hrest as (o & Hs' & (Ha & Hfx & Hnan & Hv1 & Hv2) & (Hp1 & Hp2)).
    assert (o0 = o) as -> by congruence.
    exists (accelerate o force dt). rewrite lookup_insert_eq.
    repeat split; try assumption; cbn [accelerate set_velocity velocity v_add v_scale fst snd];
      apply add_zero_zero; try assumption;
      apply mul_zero_finite; try assumption; now apply div_zero_mass.
  - destruct Hrest as (o & Hrest). exists o. now rewrite lookup_insert_ne by congruence.
Qed.

Lemma integrate_at_rest r p0 self dt :
  is_finite dt = true -> preserves (λ h, at_rest h r p0) (integrate self dt).
Proof.
  intros Hdt h res h' Hrest H.
  apply integrate_cases in H
    as [->|[(o0 & Hs & _ & _ & _ & ->)|(o0 & tg & t & ap & Hs & Hatt & _ & _ & _ & ->)]];
    [assumption| |].
  - destruct (decide (r = self)) as [->|Hne].
    + destruct Hrest as (o & Hs' & (Ha & Hfx & Hnan & Hv1 & Hv2) & (Hp1 & Hp2)).
      assert (o0 = o) as -> by congruence.
      exists (euler o dt). rewrite lookup_insert_eq.
      repeat split; try assumption; cbn [euler set_position position fst snd].
      * eapply feq_trans; [|exact Hp1]. apply add_zero_feq.
        now apply mul_zero_finite.
      * eapply feq_trans; [|exact Hp2]. apply add_zero_feq.
        now apply mul_zero_finite.
    + destruct Hrest as (o & Hrest). exists o.
      now rewrite lookup_insert_ne by congruence.
  - destruct (decide (r = self)) as [->|Hne].
    + destruct Hrest as (o & Hs' & (Ha & _) & _). congruence.
    + destruct Hrest as (o & Hrest). exists o.
      now rewrite lookup_insert_ne by congruence.
Qed.

Lemma integrate_at_rest_returns (h : heap) r p0 dt :
  at_rest h r p0 -> ∃ h', integrate r dt h = (OK tt, h').
Proof.
  intros (o & Hs & (Ha & _) & _). rewrite (integrate_free _ _ _ _ Hs Ha). eauto.
Qed.

Section Equilibrium.

Variable hypot : float -> float -> float.
Hypothesis hypot_abs : ∀ x y, hypot x y = hypot (abs x) (abs y).

Variable c : RodSpring.
Variable r0 : float.
Variables pa0 pb0 : Vector2.

Hypothesis rest_length_r0 : rest_length c = Some r0.
Hypothesis finite_r0 : is_finite r0 = true.
Hypothesis finite_stiffness : is_finite (stiffness c) = true.
Hypothesis zero_damping : is_zero (damping c) = true.
Hypothesis separation_r0 : v_len hypot (v_sub pb0 pa0) = r0.
Hypothesis finite_direction :
  PrimFloat.eqb r0 0 = false ->
  is_finite ((v_sub pb0 pa0).1 / r0) = true ∧
  is_finite ((v_sub pb0 pa0).2 / r0) = true.

Lemma separation_feq (pa pb : Vector2) :
  v_feq pa pa0 -> v_feq pb pb0 -> v_len hypot (v_sub pb pa) = r0.
Proof.
  intros [Ha1 Ha2] [Hb1 Hb2]. rewrite <- separation_r0. unfold v_len.
  rewrite hypot_abs, (hypot_abs (v_sub pb0 pa0).1).
  cbn [v_sub fst snd].
  now rewrite (abs_feq _ _ (sub_feq _ _ _ _ Hb1 Ha1)),
              (abs_feq _ _ (sub_feq _ _ _ _ Hb2 Ha2)).
Qed.

Lemma spring_force_at_rest (oa ob : PhysicsObject) :
  v_feq (position oa) pa0 -> v_feq (position ob) pb0 ->
  is_zero (velocity oa).1 = true -> is_zero (velocity oa).2 = true ->
  is_zero (velocity ob).1 = true -> is_zero (velocity ob).2 = true ->
  PrimFloat.eqb r0 0 = false ->
  is_zero (spring_force hypot c oa ob r0).1 = true ∧
  is_zero (spring_force hypot c oa ob r0).2 = true.
Proof.
  intros Hpa Hpb Ha1 Ha2 Hb1 Hb2 Hr.
  unfold spring_force. rewrite (separation_feq _ _ Hpa Hpb).
  destruct (finite_direction Hr) as [Hd1 Hd2].
  destruct Hpa as [Hpa1 Hpa2], Hpb as [Hpb1 Hpb2].
  assert (is_finite ((v_sub (position ob) (position oa)).1 / r0) = true) as Hx.
  { rewrite <- Hd1. apply is_finite_feq, div_feq. now apply sub_feq. }
  assert (is_finite ((v_sub (position ob) (position oa)).2 / r0) = true) as Hy.
  { rewrite <- Hd2. apply is_finite_feq, div_feq. now apply sub_feq. }
  cbn zeta. rewrite (sub_diag_finite _ finite_r0).
  set (dx := ((v_sub (position ob) (position oa)).1 / r0)%float) in Hx |- *.
  set (dy := ((v_sub (position ob) (position oa)).2 / r0)%float) in Hy |- *.
  assert (is_zero (- stiffness c * 0 +
                   - damping c *
                     ((v_sub (velocity ob) (velocity oa)).1 * dx +
                      (v_sub (velocity ob) (velocity oa)).2 * dy))%float = true)
    as Htotal.
  { apply add_zero_zero.
    - apply mul_finite_zero; [now rewrite opp_is_finite | reflexivity].
    - apply mul_zero_finite; [now rewrite opp_is_zero|].
      apply is_zero_is_finite, add_zero_zero;
        (apply mul_zero_finite; [now apply sub_zero_zero | assumption]). }
  cbn [v_scale fst snd]. split; now apply mul_finite_zero.
Qed.

Lemma apply_at_rest (h : heap) dt :
  is_finite dt = true ->
  at_rest h (a c) pa0 -> at_rest h (b c) pb0 ->
  ∃ h', apply hypot c dt h = (OK tt, h') ∧
        at_rest h' (a c) pa0 ∧ at_rest h' (b c) pb0.
Proof.
  intros Hdt Ha Hb.
  pose proof Ha as (oa & Hsa & (_ & _ & _ & Hva1 & Hva2) & Hpa).
  pose proof Hb as (ob & Hsb & (_ & _ & _ & Hvb1 & Hvb2) & Hpb).
  rewrite (apply_run hypot h c oa ob dt Hsa Hsb).
  rewrite (separation_feq _ _ Hpa Hpb).
  assert (PrimFloat.eqb r0 0 = true ∨ PrimFloat.eqb r0 0 = false) as [Hr|Hr]
    by (clear; destruct (PrimFloat.eqb r0 0); auto);
    rewrite Hr; [eauto|].
  rewrite rest_length_r0.
  destruct (spring_force_at_rest oa ob Hpa Hpb Hva1 Hva2 Hvb1 Hvb2 Hr) as [Hf1 Hf2].
  set (force := spring_force hypot c oa ob r0) in Hf1, Hf2 |- *.
  assert (is_zero (v_scale force (-1)).1 = true ∧
          is_zero (v_scale force (-1)).2 = true) as [Hn1 Hn2].
  { cbn [v_scale fst snd]. split; now apply mul_zero_finite. }
  destruct (apply_force_returns h (a c) (v_scale force (-1)) dt (ex_intro _ _ Hsa))
    as (h1 & H1 & Hlive).
  rewrite (bind_ok _ _ _ _ _ H1).
  pose proof (apply_force_at_rest (a c) pa0 _ _ _ Hn1 Hn2 Hdt _ _ _ Ha H1) as Ha1.
  pose proof (apply_force_at_rest (b c) pb0 _ _ _ Hn1 Hn2 Hdt _ _ _ Hb H1) as Hb1.
  destruct (apply_force_returns h1 (b c) force dt (Hlive _ (ex_intro _ _ Hsb)))
    as (h2 & H2 & _).
  exists h2. split; [exact H2|]. split.
  - exact (apply_force_at_rest (a c) pa0 _ _ _ Hf1 Hf2 Hdt _ _ _ Ha1 H2).
  - exact (apply_force_at_rest (b c) pb0 _ _ _ Hf1 Hf2 Hdt _ _ _ Hb1 H2).
Qed.

Lemma integrate_all_at_rest (objects : list nat) (h : heap) dt :
  is_finite dt = true ->
  Forall (λ r, r = a c ∨ r = b c) objects ->
  at_rest h (a c) pa0 -> at_rest h (b c) pb0 ->
  ∃ h', for_each (λ obj, integrate obj dt) objects h = (OK tt, h') ∧
        at_rest h' (a c) pa0 ∧ at_rest h' (b c) pb0.
Proof.
  intros Hdt Hobjs. revert h.
  induction Hobjs as [|r objects Hr _ IH]; intros h Ha Hb; cbn [for_each].
  - eauto.
  - assert (∃ h1, integrate r dt h = (OK tt, h1)) as [h1 H1].
    { destruct Hr as [->| ->]; eapply integrate_at_rest_returns; eassumption. }
    rewrite (bind_ok _ _ _ _ _ H1). apply IH.
    + exact (integrate_at_rest (a c) pa0 r dt Hdt _ _ _ Ha H1).
    + exact (integrate_at_rest (b c) pb0 r dt Hdt _ _ _ Hb H1).
Qed.

Lemma steps_at_rest (objects : list nat) (dts : list float) (h : heap) :
  Forall (λ dt, is_finite dt = true) dts ->
  Forall (λ r, r = a c ∨ r = b c) objects ->
  at_rest h (a c) pa0 -> at_rest h (b c) pb0 ->
  ∃ h', for_each (λ dt, step hypot objects [c] dt) dts h = (OK tt, h') ∧
        at_rest h' (a c) pa0 ∧ at_rest h' (b c) pb0.
Proof.
  intros Hdts Hobjs. revert h.
  induction Hdts as [|dt dts Hdt _ IH]; intros h Ha Hb; cbn [for_each].
  - eauto.
  - destruct (apply_at_rest h dt Hdt Ha Hb) as (h1 & H1 & Ha1 & Hb1).
    destruct (integrate_all_at_rest objects h1 dt Hdt Hobjs Ha1 Hb1)
      as (h2 & H2 & Ha2 & Hb2).
    assert (step hypot objects [c] dt h = (OK tt, h2)) as Hstep.
    { unfold step. cbn [for_each].
      erewrite bind_ok; [exact H2|]. now rewrite (bind_ok _ _ _ _ _ H1). }
    rewrite (bind_ok _ _ _ _ _ Hstep). now apply IH.
Qed.

End Equilibrium.

Lemma hypot_sqrt_abs x y : hypot_sqrt x y = hypot_sqrt (abs x) (abs y).
Proof. unfold hypot_sqrt. now rewrite !mul_abs_abs. Qed.

(** C8 (amended): two free, non-fixed objects of masses that are numbers,
    with zero velocities, joined by a spring of finite rest length r0,
    finite stiffness and zero damping, at a separation that is exactly r0
    (with a finite unit direction); math.hypot not depending on the signs of
    its arguments.  Then any number of steps with finite dt, integrating the
    two objects, returns; the separation is still exactly r0, the velocities
    are still zero, and each position is what it was, up to the sign of a
    zero coordinate. *)
Theorem spring_equilibrium (hypot : float -> float -> float) (h : heap)
    (c : RodSpring) (r0 : float) (oa ob : PhysicsObject)
    (objects : list nat) (dts : list float) :
  (∀ x y, hypot x y = hypot (abs x) (abs y)) ->
  h !! a c = Some oa -> h !! b c = Some ob -> still oa -> still ob ->
  rest_length c = Some r0 -> is_finite r0 = true ->
  is_finite (stiffness c) = true -> is_zero (damping c) = true ->
  let delta := v_sub (position ob) (position oa) in
  v_len hypot delta = r0 ->
  (PrimFloat.eqb r0 0 = false ->
   is_finite (delta.1 / r0) = true ∧ is_finite (delta.2 / r0) = true) ->
  Forall (λ dt, is_finite dt = true) dts ->
  Forall (λ r, r = a c ∨ r = b c) objects ->
  ∃ h' oa' ob',
    for_each (λ dt, step hypot objects [c] dt) dts h = (OK tt, h') ∧
    h' !! a c = Some oa' ∧ h' !! b c = Some ob' ∧
    v_len hypot (v_sub (position ob') (position oa')) = r0 ∧
    still oa' ∧ still ob' ∧
    v_feq (position oa') (position oa) ∧ v_feq (position ob') (position ob).
Proof.
  intros Habs Hsa Hsb Hstill_a Hstill_b Hrest Hr0 Hk Hd delta Hsep Hdir Hdts Hobjs.
  assert (at_rest h (a c) (position oa)) as Ha.
  { exists oa. split; [assumption|]. split; [assumption|]. split; apply feq_refl. }
  assert (at_rest h (b c) (position ob)) as Hb.
  { exists ob. split; [assumption|]. split; [assumption|]. split; apply feq_refl. }
  destruct (steps_at_rest hypot Habs c r0 (position oa) (position ob)
              Hrest Hr0 Hk Hd Hsep Hdir objects dts h Hdts Hobjs Ha Hb)
    as (h' & Hrun & (oa' & Hsa' & Hstill_a' & Hpa) & (ob' & Hsb' & Hstill_b' & Hpb)).
  exists h', oa', ob'. split; [exact Hrun|].
  split; [exact Hsa'|]. split; [exact Hsb'|]. split.
  - exact (separation_feq hypot Habs r0 (position oa) (position ob) Hsep _ _ Hpa Hpb).
  - auto.
Qed.

Lemma spring_equilibrium_witness :
  ∃ h' oa' ob',
    for_each (λ dt, step hypot_sqrt [0%nat; 1%nat] [soft_spring] dt)
             [0.001; 0.001]%float spring_scene = (OK tt, h') ∧
    h' !! 0%nat = Some oa' ∧ h' !! 1%nat = Some ob' ∧
    v_len hypot_sqrt (v_sub (position ob') (position oa')) = 5%float.
Proof.
  assert (still (Ball_new (0, 0)%float v_zero 1 0.1)) as Ha by (repeat split).
  assert (still (Ball_new (3, 4)%float v_zero 1 0.1)) as Hb by (repeat split).
  assert (Forall (λ dt, is_finite dt = true) [0.001; 0.001]%float) as Hdts
    by (repeat constructor).
  assert (Forall (λ r : nat, r = a soft_spring ∨ r = b soft_spring) [0%nat; 1%nat])
    as Hobjs by (repeat constructor; auto).
  destruct (spring_equilibrium hypot_sqrt spring_scene soft_spring 5
              (Ball_new (0, 0)%float v_zero 1 0.1) (Ball_new (3, 4)%float v_zero 1 0.1)
              [0%nat; 1%nat] [0.001; 0.001]%float hypot_sqrt_abs eq_refl eq_refl
              Ha Hb eq_refl eq_refl eq_refl eq_refl eq_refl
              (λ _, conj eq_refl eq_refl) Hdts Hobjs)
    as (h' & oa' & ob' & Hrun & Hsa & Hsb & Hsep & _).
  exists h', oa', ob'. repeat split; assumption.
Defined.

(** Equilibrium is lost by a rod of infinite stiffness: at rest length the
    stretch is 0.0 and -inf * 0.0 is NaN, so after one step both velocities
    and both positions are NaN, and the separation no longer equals 5.
    ([hypot_sqrt 3 4] is 5, as is math.hypot(3.0, 4.0).) *)
Lemma spring_equilibrium_counterexample :
  v_len hypot_sqrt (v_sub (3, 4)%float (0, 0)%float) = 5%float ∧
  (step hypot_sqrt [0%nat; 1%nat] [rigid_rod] 0.001 spring_scene).1 = OK tt ∧
  velocity <$> (step hypot_sqrt [0%nat; 1%nat] [rigid_rod] 0.001 spring_scene).2 !! 1%nat
    = Some (nan, nan) ∧
  position <$> (step hypot_sqrt [0%nat; 1%nat] [rigid_rod] 0.001 spring_scene).2 !! 1%nat
    = Some (nan, nan) ∧
  position <$> (step hypot_sqrt [0%nat; 1%nat] [rigid_rod] 0.001 spring_scene).2 !! 0%nat
    = Some (nan, nan) ∧
  PrimFloat.eqb (v_len hypot_sqrt (v_sub (nan, nan) (nan, nan))) 5 = false ∧
  PrimFloat.eqb nan 0 = false.
Proof. repeat split; vm_compute; reflexivity. Qed.

(** * Further properties of the module *)

(** ** Objects that do not move *)

Lemma apply_force_keeps_fixed (r : nat) (o : PhysicsObject) self force dt :
  fixed o = true ->
  preserves (λ h, h !! r = Some o) (apply_force self force dt).
Proof.
  intros Hf h res h' Hr H.
  apply apply_force_cases in H as [->|(o0 & Hs & Hf0 & _ & _ & _ & ->)];
    [assumption|].
  destruct (decide (r = self)) as [->|Hne].
  - congruence.
  - now rewrite lookup_insert_ne by congruence.
Qed.

Lemma integrate_keeps_fixed (r : nat) (o : PhysicsObject) self dt :
  fixed o = true -> _attached_to o = None ->
  preserves (λ h, h !! r = Some o) (integrate self dt).
Proof.
  intros Hf Ha h res h' Hr H.
  apply integrate_cases in H
    as [->|[(o0 & Hs & _ & Hf0 & _ & ->)|(o0 & tg & t & ap & Hs & Ha0 & _ & _ & _ & ->)]];
    [assumption| |];
    (destruct (decide (r = self)) as [->|Hne];
     [congruence | now rewrite lookup_insert_ne by congruence]).
Qed.

(** X1: an object that is fixed and not attached (an Anchor as constructed)
    is left exactly as it is by apply_force, by integrate, by a spring's
    apply and by step, whatever the springs, the list of objects and dt,
    and whether the call returns or raises. *)
Theorem fixed_object_never_moves (hypot : float -> float -> float) (h : heap)
    (r : nat) (o : PhysicsObject) :
  h !! r = Some o -> fixed o = true -> _attached_to o = None ->
  ∀ res h',
    ((∃ self force dt, apply_force self force dt h = (res, h')) ∨
     (∃ self dt, integrate self dt h = (res, h')) ∨
     (∃ c dt, apply hypot c dt h = (res, h')) ∨
     (∃ objects constraints dt, step hypot objects constraints dt h = (res, h'))) ->
    h' !! r = Some o.
Proof.
  intros Hr Hf Ha res h'
    [(self & force & dt & H)|[(self & dt & H)|[(c & dt & H)|(objs & cs & dt & H)]]].
  - exact (apply_force_keeps_fixed r o _ _ _ Hf _ _ _ Hr H).
  - exact (integrate_keeps_fixed r o _ _ Hf Ha _ _ _ Hr H).
  - refine (preserves_apply hypot (λ h, h !! r = Some o) c dt _ _ _ _ Hr H).
    intros; now apply apply_force_keeps_fixed.
  - refine (preserves_step hypot (λ h, h !! r = Some o) objs cs dt _ _ _ _ _ Hr H).
    + intros; now apply apply_force_keeps_fixed.
    + intros; now apply integrate_keeps_fixed.
Qed.

Lemma fixed_object_never_moves_witness :
  (step hypot_sqrt [anchor; ball] [mkSpring anchor ball (Some 2%float) 100 0]
        0.001 demo).2 !! anchor = Some (Anchor_new (0, 0)%float).
Proof.
  refine (fixed_object_never_moves hypot_sqrt demo anchor _ eq_refl eq_refl eq_refl
            (OK tt) _ _).
  do 3 right.
  exists [anchor; ball], [mkSpring anchor ball (Some 2%float) 100 0], 0.001%float.
  reflexivity.
Defined.

(** ** detach twice, attach then detach *)

(** X2: detach is idempotent: after a detach that returned, a second
    detach returns and changes nothing. *)
Theorem detach_idempotent (h : heap) (self : nat) (h1 : heap) :
  detach self h = (OK tt, h1) -> detach self h1 = (OK tt, h1).
Proof.
  intros H.
  apply detach_cases in H
    as [[_ [e He]]|[(-> & _ & o & Hs & Ha)|(o & tg & t & _ & _ & _ & _ & ->)]].
  - discriminate.
  - exact (detach_free _ _ _ Hs Ha).
  - apply (detach_free _ _ (detached o (velocity t))); [apply lookup_insert_eq|reflexivity].
Qed.

Lemma detach_idempotent_witness :
  detach ball (detach ball demo_attached).2 =
    (OK tt, (detach ball demo_attached).2).
Proof. exact (detach_idempotent demo_attached ball _ eq_refl). Defined.

(** X3: attach_to followed by detach, on an object that was not attached,
    gives the object back with its position, mass, [fixed] flag and empty
    attachment attributes as they were; only its velocity is replaced, by
    the target's.  No other object changes. *)
Theorem attach_detach_round_trip (h : heap) (self : nat) (o : PhysicsObject)
    (target : nat) (t : PhysicsObject) (target_part : string) :
  h !! self = Some o -> h !! target = Some t ->
  target_part ∈ attach_point_names (cls t) -> unattached o ->
  (attach_to self (Some target) target_part ≫= λ _, detach self) h =
    (OK tt, <[self := set_velocity (velocity t) o]> h).
Proof.
  intros Hs Ht Hin (Ha & Hp & Hoff & Hprev).
  destruct (attach_to_total _ _ _ _ _ _ Hs Ht Hin) as (ap & _ & Hrun).
  rewrite (bind_ok _ _ _ _ _ Hrun).
  set (o1 := attached o target target_part ap).
  assert (∃ t1, <[self := o1]> h !! target = Some t1 ∧ velocity t1 = velocity t)
    as (t1 & Ht1 & Hv).
  { destruct (decide (target = self)) as [->|Hne].
    - exists o1. rewrite lookup_insert_eq. split; [reflexivity|].
      cbn. congruence.
    - exists t. now rewrite lookup_insert_ne by congruence. }
  rewrite (detach_attached _ _ o1 target t1 (lookup_insert_eq _ _ _) eq_refl Ht1).
  rewrite insert_insert_eq, Hv. f_equal. f_equal.
  destruct o; cbn in *; subst; reflexivity.
Qed.

Lemma attach_detach_round_trip_witness :
  (attach_to ball (Some anchor) "anchor" ≫= λ _, detach ball) demo = (OK tt, demo).
Proof.
  etransitivity.
  - refine (attach_detach_round_trip demo ball _ anchor _ "anchor" eq_refl eq_refl _ _).
    + apply elem_of_cons. now left.
    + repeat split.
  - reflexivity.
Defined.

(** ** The point every class names *)

(** X4: every class answers to "center" with the object's position, and an
    Anchor answers to "anchor" with the same point; so attach_to at "center"
    (the default name) returns for every live target, records
    position - target position as the offset and the old [fixed] flag as the
    saved state, and leaves position and velocity as they are. *)
Theorem center_is_always_known (h : heap) (self target : nat)
    (o t : PhysicsObject) :
  h !! self = Some o -> h !! target = Some t ->
  attach_point_of t "center" = OK (position t) ∧
  (cls t = Anchor -> attach_point_of t "anchor" = OK (position t)) ∧
  attach_to self (Some target) "center" h =
    (OK tt,
     <[self := mkObj (position o) (velocity o) (mass o) (color o) true
                     (Some target) (Some "center")
                     (Some (v_sub (position o) (position t)))
                     (Some (fixed o)) (cls o)]> h).
Proof.
  intros Hs Ht.
  assert (attach_point_of t "center" = OK (position t)) as Hc.
  { unfold attach_point_of. destruct (cls t); try reflexivity.
    rewrite box_parts_lookup. reflexivity. }
  split; [exact Hc|]. split.
  - intros Hk. unfold attach_point_of. now rewrite Hk.
  - exact (attach_to_run _ _ _ _ _ _ _ Hs Ht Hc).
Qed.

Lemma center_is_always_known_witness :
  attach_point_of (Anchor_new (0, 0)%float) "center" = OK (0, 0)%float.
Proof.
  exact (proj1 (center_is_always_known demo ball anchor _ _ eq_refl eq_refl)).
Defined.

(** ** What forces and integration leave alone *)

Lemma bind_inv {A B : Type} (m : M A) (k : A -> M B) h v h' :
  (m ≫= k) h = (OK v, h') -> ∃ x h1, m h = (OK x, h1) ∧ k x h1 = (OK v, h').
Proof.
  unfold mbind, M_bind. destruct (m h) as [[x|e] h1]; [eauto|discriminate].
Qed.

Lemma for_each_app {A : Type} (f : A -> M unit) (l1 l2 : list A) (h : heap) :
  for_each f (l1 ++ l2) h = (for_each f l1 ≫= λ _, for_each f l2) h.
Proof.
  revert h. induction l1 as [|x l1 IH]; intros h; [reflexivity|].
  cbn [app for_each]. unfold mbind, M_bind in *.
  destruct (f x h) as [[[]|e] h1]; [apply IH | reflexivity].
Qed.

Lemma preserves_for_each_in {A : Type} (P : heap -> Prop) (f : A -> M unit) l :
  (∀ x, x ∈ l -> preserves P (f x)) -> preserves P (for_each f l).
Proof.
  induction l as [|x l IH]; intros Hf; cbn [for_each].
  - apply preserves_ret.
  - apply preserves_bind.
    + apply Hf. apply elem_of_cons. now left.
    + intros _. apply IH. intros y Hy. apply Hf. apply elem_of_cons. now right.
Qed.

(** A spring acts on its two ends only. *)
Lemma preserves_apply_ends (hypot : float -> float -> float) (P : heap -> Prop) c dt :
  (∀ force, preserves P (apply_force (a c) force dt)) ->
  (∀ force, preserves P (apply_force (b c) force dt)) ->
  preserves P (apply hypot c dt).
Proof.
  intros Hfa Hfb. unfold apply.
  apply preserves_bind; [apply preserves_load | intros ob].
  apply preserves_bind; [apply preserves_load | intros oa].
  destruct (PrimFloat.eqb _ _); [apply preserves_ret|].
  apply preserves_bind; [apply preserves_lift | intros dx].
  apply preserves_bind; [apply preserves_lift | intros dy].
  apply preserves_bind; [apply preserves_lift | intros r].
  apply preserves_bind; [apply Hfa | intros _; apply Hfb].
Qed.

Lemma same_but_velocity_insert (h0 h : heap) self o o' :
  same_but_velocity h0 h -> h !! self = Some o ->
  position o' = position o -> static o' = static o ->
  same_but_velocity h0 (<[self := o']> h).
Proof.
  intros Hsame Hs Hp Hst r. rewrite <- Hsame.
  destruct (decide (r = self)) as [->|Hne].
  - rewrite lookup_insert_eq, Hs. cbn. now rewrite Hp, Hst.
  - now rewrite lookup_insert_ne by congruence.
Qed.

Lemma same_static_insert (h0 h : heap) self o o' :
  same_static h0 h -> h !! self = Some o -> static o' = static o ->
  same_static h0 (<[self := o']> h).
Proof.
  intros Hsame Hs Hst r. rewrite <- Hsame.
  destruct (decide (r = self)) as [->|Hne].
  - rewrite lookup_insert_eq, Hs. cbn. now rewrite Hst.
  - now rewrite lookup_insert_ne by congruence.
Qed.

Lemma same_but_velocity_static (h h' : heap) :
  same_but_velocity h h' -> same_static h h'.
Proof.
  intros Hsame r. specialize (Hsame r).
  destruct (h' !! r), (h !! r); cbn in *; congruence.
Qed.

Lemma apply_force_same_but_velocity (h0 : heap) self force dt :
  preserves (same_but_velocity h0) (apply_force self force dt).
Proof.
  intros h res h' Hsame H.
  apply apply_force_cases in H as [->|(o & Hs & _ & _ & _ & _ & ->)]; [assumption|].
  now apply (same_but_velocity_insert _ _ _ o).
Qed.

Lemma apply_force_same_static (h0 : heap) self force dt :
  preserves (same_static h0) (apply_force self force dt).
Proof.
  intros h res h' Hsame H.
  apply apply_force_cases in H as [->|(o & Hs & _ & _ & _ & _ & ->)]; [assumption|].
  now apply (same_static_insert _ _ _ o).
Qed.

Lemma integrate_same_static (h0 : heap) self dt :
  preserves (same_static h0) (integrate self dt).
Proof.
  intros h res h' Hsame H.
  apply integrate_cases in H
    as [->|[(o & Hs & _ & _ & _ & ->)|(o & tg & t & ap & Hs & _ & _ & _ & _ & ->)]];
    [assumption| |]; now apply (same_static_insert _ _ _ o).
Qed.

Lemma constraint_pass_frame (hypot : float -> float -> float)
    (constraints : list RodSpring) (dt : float) (r : nat)
    (x : option PhysicsObject) :
  Forall (λ c, a c ≠ r ∧ b c ≠ r) constraints ->
  preserves (λ h, h !! r = x) (for_each (λ c, apply hypot c dt) constraints).
Proof.
  intros Hends. apply preserves_for_each_in.
  intros c Hc. rewrite Forall_forall in Hends. destruct (Hends c Hc) as [Ha Hb].
  apply preserves_apply_ends; intros force h1 res1 h2 Hr H1;
    rewrite <- Hr; eapply apply_force_frame; eauto.
Qed.

(** X5: the constraint pass of a step (every spring's apply, in order)
    changes velocities only: whether it returns or raises, the same objects
    are live afterwards, each at the same position and with the same mass,
    color, [fixed] flag, attachment attributes and class; and an object that
    is an end of none of the springs is left exactly as it was. *)
Theorem constraint_pass_changes_velocities_only (hypot : float -> float -> float)
    (constraints : list RodSpring) (dt : float) (h : heap) (res : result unit)
    (h' : heap) :
  for_each (λ c, apply hypot c dt) constraints h = (res, h') ->
  same_but_velocity h h' ∧
  ∀ r, Forall (λ c, a c ≠ r ∧ b c ≠ r) constraints -> h' !! r = h !! r.
Proof.
  intros H. split.
  - refine (preserves_for_each (same_but_velocity h) _ constraints _ _ _ _ _ H).
    + intros c. apply preserves_apply. intros; apply apply_force_same_but_velocity.
    + intros r. reflexivity.
  - intros r Hends.
    exact (constraint_pass_frame hypot constraints dt r (h !! r) Hends _ _ _ eq_refl H).
Qed.

(** X6: a step changes positions and velocities only: whether it returns or
    raises, the same objects are live afterwards, each with the same mass,
    color, [fixed] flag, attachment attributes and class. *)
Theorem step_keeps_static (hypot : float -> float -> float)
    (objects : list nat) (constraints : list RodSpring) (dt : float)
    (h : heap) (res : result unit) (h' : heap) :
  step hypot objects constraints dt h = (res, h') -> same_static h h'.
Proof.
  intros H.
  refine (preserves_step hypot (same_static h) objects constraints dt _ _ _ _ _ _ H).
  - intros; apply apply_force_same_static.
  - intros; apply integrate_same_static.
  - intros r. reflexivity.
Qed.

Lemma constraint_pass_changes_velocities_only_witness :
  same_but_velocity spring_scene
    (for_each (λ c, apply hypot_sqrt c 0.001) [mkSpring 0 1 (Some 2%float) 100 0]
              spring_scene).2.
Proof.
  exact (proj1 (constraint_pass_changes_velocities_only hypot_sqrt
                  [mkSpring 0 1 (Some 2%float) 100 0] 0.001 spring_scene
                  (OK tt) _ eq_refl)).
Defined.

Lemma step_keeps_static_witness :
  same_static demo_attached
    (step hypot_sqrt [anchor; ball] [mkSpring anchor ball (Some 2%float) 100 0]
          0.001 demo_attached).2.
Proof.
  exact (step_keeps_static hypot_sqrt [anchor; ball]
           [mkSpring anchor ball (Some 2%float) 100 0] 0.001 demo_attached
           (OK tt) _ eq_refl).
Defined.

(** ** Well-formed stores: a step always returns *)

Lemma known_of_attach_point_of (t : PhysicsObject) part p :
  attach_point_of t part = OK p -> part ∈ attach_point_names (cls t).
Proof.
  intros Hp. destruct (decide (part ∈ attach_point_names (cls t))) as [|Hn];
    [assumption|].
  rewrite (attach_point_of_unknown _ _ Hn) in Hp. discriminate.
Qed.

Lemma same_static_lookup (h h' : heap) r o :
  same_static h h' -> h !! r = Some o ->
  ∃ o', h' !! r = Some o' ∧ static o' = static o.
Proof.
  intros Hsame Hr. specialize (Hsame r). rewrite Hr in Hsame.
  destruct (h' !! r) as [o'|]; [|discriminate].
  exists o'. split; [reflexivity|].
  change (Some (static o') = Some (static o)) in Hsame. congruence.
Qed.

Lemma same_static_sym (h h' : heap) : same_static h h' -> same_static h' h.
Proof. intros Hsame r. now rewrite Hsame. Qed.

Lemma same_static_trans (h1 h2 h3 : heap) :
  same_static h1 h2 -> same_static h2 h3 -> same_static h1 h3.
Proof. intros H12 H23 r. now rewrite H23, H12. Qed.

Lemma well_formed_same_static (h h' : heap) :
  well_formed h -> same_static h h' -> well_formed h'.
Proof.
  intros Hwf Hsame r o' t Hr Ha.
  destruct (same_static_lookup _ _ _ _ (same_static_sym _ _ Hsame) Hr)
    as (o & Hro & Hst).
  injection Hst as _ _ _ Hat Hpart _ _ _.
  destruct (Hwf r o t Hro) as (x & Hx & Hin); [congruence|].
  destruct (same_static_lookup _ _ _ _ Hsame Hx) as (x' & Hx' & Hstx).
  injection Hstx as _ _ _ _ _ _ _ Hcls.
  exists x'. split; [assumption|]. congruence.
Qed.

Lemma spring_ok_same_static (h h' : heap) c :
  spring_ok h c -> same_static h h' -> spring_ok h' c.
Proof.
  intros ([oa Ha] & [ob Hb] & Hr) Hsame.
  destruct (same_static_lookup _ _ _ _ Hsame Ha) as (oa' & Ha' & _).
  destruct (same_static_lookup _ _ _ _ Hsame Hb) as (ob' & Hb' & _).
  repeat split; eauto.
Qed.

Lemma integrate_returns (h : heap) self dt :
  well_formed h -> is_Some (h !! self) -> ∃ h', integrate self dt h = (OK tt, h').
Proof.
  intros Hwf [o Hs]. destruct (_attached_to o) as [t|] eqn:Ha.
  - destruct (Hwf _ _ _ Hs Ha) as (x & Hx & Hin).
    destruct (attach_point_of_known _ _ Hin) as [p Hp].
    rewrite (integrate_attached _ _ _ _ _ _ _ Hs Ha Hx Hp). eauto.
  - rewrite (integrate_free _ _ _ _ Hs Ha). eauto.
Qed.

Lemma apply_returns (hypot : float -> float -> float) (h : heap) c dt :
  spring_ok h c -> ∃ h', apply hypot c dt h = (OK tt, h').
Proof.
  intros ([oa Ha] & [ob Hb] & Hr).
  rewrite (apply_run hypot h c oa ob dt Ha Hb).
  destruct (PrimFloat.eqb _ _); [eauto|].
  destruct (rest_length c) as [r|]; [|contradiction].
  destruct (apply_force_returns h (a c) (v_scale (spring_force hypot c oa ob r) (-1))
              dt (ex_intro _ _ Ha)) as (h1 & H1 & Hlive).
  rewrite (bind_ok _ _ _ _ _ H1).
  destruct (apply_force_returns h1 (b c) (spring_force hypot c oa ob r) dt
              (Hlive _ (ex_intro _ _ Hb))) as (h2 & H2 & _).
  eauto.
Qed.

Lemma constraint_pass_returns (hypot : float -> float -> float) constraints dt
    (h0 h : heap) :
  same_static h0 h -> Forall (spring_ok h0) constraints ->
  ∃ h', for_each (λ c, apply hypot c dt) constraints h = (OK tt, h') ∧
        same_static h0 h'.
Proof.
  intros Hsame Hok. revert h Hsame.
  induction Hok as [|c cs Hc _ IH]; intros h Hsame; cbn [for_each]; [eauto|].
  destruct (apply_returns hypot h c dt (spring_ok_same_static _ _ _ Hc Hsame))
    as [h1 H1].
  rewrite (bind_ok _ _ _ _ _ H1). apply IH.
  refine (preserves_apply hypot (same_static h0) c dt _ _ _ _ Hsame H1).
  intros; apply apply_force_same_static.
Qed.

Lemma integrate_pass_returns objects dt (h0 h : heap) :
  well_formed h0 -> same_static h0 h ->
  Forall (λ r, is_Some (h0 !! r)) objects ->
  ∃ h', for_each (λ obj, integrate obj dt) objects h = (OK tt, h') ∧
        same_static h0 h'.
Proof.
  intros Hwf Hsame Hlive. revert h Hsame.
  induction Hlive as [|r rs [o Hr] _ IH]; intros h Hsame; cbn [for_each]; [eauto|].
  destruct (same_static_lookup _ _ _ _ Hsame Hr) as (o' & Hr' & _).
  destruct (integrate_returns h r dt (well_formed_same_static _ _ Hwf Hsame)
              (ex_intro _ _ Hr')) as [h1 H1].
  rewrite (bind_ok _ _ _ _ _ H1). apply IH.
  exact (integrate_same_static h0 r dt _ _ _ Hsame H1).
Qed.

(** X7: on a store in which every attachment points to a live object and
    names one of its attach points, a step over live objects and springs
    whose two ends are live and whose rest length is set returns normally,
    whatever dt; and the store it leaves is again such a store, with the same
    objects live. *)
Theorem step_returns (hypot : float -> float -> float) (h : heap)
    (objects : list nat) (constraints : list RodSpring) (dt : float) :
  well_formed h ->
  Forall (λ r, is_Some (h !! r)) objects ->
  Forall (spring_ok h) constraints ->
  ∃ h', step hypot objects constraints dt h = (OK tt, h') ∧
        well_formed h' ∧ same_static h h' ∧
        Forall (λ r, is_Some (h' !! r)) objects ∧
        Forall (spring_ok h') constraints.
Proof.
  intros Hwf Hlive Hok.
  destruct (constraint_pass_returns hypot constraints dt h h (λ r, eq_refl) Hok)
    as (h1 & H1 & Hs1).
  destruct (integrate_pass_returns objects dt h h1 Hwf Hs1 Hlive) as (h2 & H2 & Hs2).
  exists h2. split; [|split; [|split; [|split]]].
  - unfold step. now rewrite (bind_ok _ _ _ _ _ H1).
  - exact (well_formed_same_static _ _ Hwf Hs2).
  - exact Hs2.
  - eapply Forall_impl; [exact Hlive|]. intros r [o Hr].
    destruct (same_static_lookup _ _ _ _ Hs2 Hr) as (o' & Hr' & _). eauto.
  - eapply Forall_impl; [exact Hok|]. intros c Hc.
    exact (spring_ok_same_static _ _ _ Hc Hs2).
Qed.

(** X8: attach_to and detach keep the store well formed, whether they return
    or raise: attach_to records a live target and a name it has resolved on
    it, detach records nothing, and neither changes the class of an object
    nor removes one. *)
Theorem attach_detach_keep_well_formed (h : heap) :
  well_formed h ->
  ∀ res h',
    ((∃ self target target_part, attach_to self target target_part h = (res, h')) ∨
     (∃ self, detach self h = (res, h'))) ->
    well_formed h'.
Proof.
  intros Hwf res h' [(self & target & part & H)|(self & H)].
  - apply attach_to_cases in H
      as [[-> _]|(o & tg & t & ap & -> & Hs & Ht & Hp & _ & ->)]; [assumption|].
    set (o1 := attached o tg part ap).
    intros r x t' Hr Ha.
    destruct (decide (r = self)) as [->|Hne].
    + rewrite lookup_insert_eq in Hr. injection Hr as <-.
      cbn in Ha. injection Ha as <-.
      destruct (lookup_same_class h self o o1 tg t Hs eq_refl Ht) as (t1 & Ht1 & Hc1).
      exists t1. split; [assumption|]. cbn [o1 attached _attached_part].
      rewrite (attach_point_of_known_name _ _ _ Hp), Hc1.
      exact (known_of_attach_point_of _ _ _ Hp).
    + rewrite lookup_insert_ne in Hr by congruence.
      destruct (Hwf _ _ _ Hr Ha) as (y & Hy & Hin).
      destruct (lookup_same_class h self o o1 t' y Hs eq_refl Hy) as (y1 & Hy1 & Hc1).
      exists y1. split; [assumption|]. now rewrite Hc1.
  - apply detach_cases in H
      as [[-> _]|[[-> _]|(o & tg & t & Hs & _ & _ & _ & ->)]]; [assumption..|].
    intros r x t' Hr Ha.
    destruct (decide (r = self)) as [->|Hne].
    + rewrite lookup_insert_eq in Hr. injection Hr as <-. discriminate.
    + rewrite lookup_insert_ne in Hr by congruence.
      destruct (Hwf _ _ _ Hr Ha) as (y & Hy & Hin).
      destruct (lookup_same_class h self o (detached o (velocity t)) t' y
                  Hs eq_refl Hy) as (y1 & Hy1 & Hc1).
      exists y1. split; [assumption|]. now rewrite Hc1.
Qed.

Lemma well_formed_demo : well_formed demo.
Proof.
  intros r o t. unfold demo.
  rewrite lookup_insert_Some. intros [[_ <-]|[_ H]]; [discriminate|].
  apply lookup_insert_Some in H as [[_ <-]|[_ H]]; [discriminate|].
  now rewrite lookup_empty in H.
Defined.

Lemma well_formed_demo_attached : well_formed demo_attached.
Proof.
  intros r o t. unfold demo_attached.
  rewrite lookup_insert_Some. intros [[_ <-]|[_ H]]; [discriminate|].
  apply lookup_insert_Some in H as [[_ <-]|[_ H]];
    [|now rewrite lookup_empty in H].
  intros [= <-]. eexists. split; [reflexivity|].
  apply elem_of_cons. now left.
Defined.

Lemma step_returns_witness :
  ∃ h', step hypot_sqrt [anchor; ball] [mkSpring anchor ball (Some 2%float) 100 0]
             0.001 demo_attached = (OK tt, h') ∧ well_formed h'.
Proof.
  destruct (step_returns hypot_sqrt demo_attached [anchor; ball]
              [mkSpring anchor ball (Some 2%float) 100 0] 0.001
              well_formed_demo_attached)
    as (h' & Hrun & Hwf & _).
  - repeat constructor; eexists; reflexivity.
  - repeat constructor; try (eexists; reflexivity). discriminate.
  - exists h'. split; assumption.
Defined.

Lemma attach_detach_keep_well_formed_witness :
  well_formed (attach_to ball (Some anchor) "anchor" demo).2.
Proof.
  refine (attach_detach_keep_well_formed demo well_formed_demo (OK tt) _ _).
  left. exists ball, (Some anchor), "anchor". reflexivity.
Defined.

(** ** Euler integration through a step *)

Lemma integrate_dangling (h : heap) self o target dt :
  h !! self = Some o -> _attached_to o = Some target -> h !! target = None ->
  integrate self dt h = (Raise DanglingReference, h).
Proof.
  intros Hs Ha Ht. unfold integrate. run. rewrite Ha.
  erewrite bind_raise; [reflexivity|].
  unfold get_attach_point.
  erewrite bind_raise; [reflexivity|]. unfold load. now rewrite Ht.
Qed.

Lemma integrate_attached_inv (h : heap) self o target dt h' :
  h !! self = Some o -> _attached_to o = Some target ->
  integrate self dt h = (OK tt, h') ->
  ∃ t attach_point,
    h !! target = Some t ∧
    attach_point_of t (part_or_center (_attached_part o)) = OK attach_point ∧
    h' = <[self := follow attach_point (velocity t) o]> h.
Proof.
  intros Hs Ha H. destruct (h !! target) as [t|] eqn:Ht.
  - destruct (attach_point_of t (part_or_center (_attached_part o)))
      as [ap|e] eqn:Hp.
    + rewrite (integrate_attached _ _ _ _ _ _ dt Hs Ha Ht Hp) in H.
      injection H as <-. eauto.
    + rewrite (integrate_attached_raise _ _ _ _ _ _ dt Hs Ha Ht Hp) in H.
      discriminate.
  - rewrite (integrate_dangling _ _ _ _ dt Hs Ha Ht) in H. discriminate.
Qed.

Lemma for_each_keeps_lookup {A : Type} (f : A -> M unit) (l : list A)
    (r : nat) (x : option PhysicsObject) :
  (∀ y, y ∈ l -> preserves (λ h, h !! r = x) (f y)) ->
  preserves (λ h, h !! r = x) (for_each f l).
Proof. apply preserves_for_each_in. Qed.

(** X9: explicit Euler through a step.  A free object that is not fixed,
    is an end of none of the springs and occurs once in the list of objects
    comes out of a step that returns with position + velocity * dt as its
    position (componentwise, in float arithmetic) and everything else,
    velocity included, as it was. *)
Theorem step_euler (hypot : float -> float -> float) (h : heap) (self : nat)
    (o : PhysicsObject) (before after : list nat)
    (constraints : list RodSpring) (dt : float) (h' : heap) :
  h !! self = Some o -> _attached_to o = None -> fixed o = false ->
  self ∉ before -> self ∉ after ->
  Forall (λ c, a c ≠ self ∧ b c ≠ self) constraints ->
  step hypot (before ++ self :: after) constraints dt h = (OK tt, h') ->
  ∃ o', h' !! self = Some o' ∧
        position o' = ((position o).1 + (velocity o).1 * dt,
                       (position o).2 + (velocity o).2 * dt)%float ∧
        set_position (position o) o' = o.
Proof.
  intros Hs Ha Hf Hbefore Hafter Hends H.
  unfold step in H.
  apply bind_inv in H as ([] & h1 & H1 & H).
  pose proof (constraint_pass_frame hypot constraints dt self (Some o) Hends
                _ _ _ Hs H1) as Hs1.
  rewrite for_each_app in H. apply bind_inv in H as ([] & h2 & H2 & H).
  cbn [for_each] in H. apply bind_inv in H as ([] & h3 & H3 & H).
  assert (h2 !! self = Some o) as Hs2.
  { refine (for_each_keeps_lookup _ before self (Some o) _ _ _ _ Hs1 H2).
    intros r Hr h4 res h5 Hl Hint. rewrite <- Hl.
    eapply integrate_frame; [exact Hint|]. intros ->. contradiction. }
  rewrite (integrate_free _ _ _ _ Hs2 Ha), Hf in H3. injection H3 as <-.
  exists (euler o dt). split; [|split].
  - refine (for_each_keeps_lookup _ after self (Some (euler o dt)) _ _ _ _ _ H).
    + intros r Hr h4 res h5 Hl Hint. rewrite <- Hl.
      eapply integrate_frame; [exact Hint|]. intros ->. contradiction.
    + apply lookup_insert_eq.
  - reflexivity.
  - now destruct o.
Qed.

Lemma step_euler_witness :
  ∃ o', (step hypot_sqrt [mover; follower] [] 0.5 rigidity_scene).2 !! mover = Some o' ∧
        position o' = (0.1 + 0.6 * 0.5, 0 + 0 * 0.5)%float.
Proof.
  destruct (step_euler hypot_sqrt rigidity_scene mover _ [] [follower] [] 0.5
              (step hypot_sqrt [mover; follower] [] 0.5 rigidity_scene).2
              eq_refl eq_refl eq_refl) as (o' & Hs & Hp & _).
  - apply not_elem_of_nil.
  - apply not_elem_of_cons. split; [discriminate | apply not_elem_of_nil].
  - constructor.
  - reflexivity.
  - exists o'. split; assumption.
Defined.

(** ** Following the target *)

Lemma constraint_pass_same_static (hypot : float -> float -> float)
    constraints dt (h0 : heap) :
  preserves (same_static h0) (for_each (λ c, apply hypot c dt) constraints).
Proof.
  apply preserves_for_each. intros c. apply preserves_apply.
  intros; apply apply_force_same_static.
Qed.

Lemma integrate_pass_same_static objects dt (h0 : heap) :
  preserves (same_static h0) (for_each (λ obj, integrate obj dt) objects).
Proof. apply preserves_for_each. intros r. apply integrate_same_static. Qed.

(** A recorded name that is not empty is the name integrate resolves. *)
Lemma part_or_center_recorded (part : string) :
  part ≠ "" -> part_or_center (Some part) = part.
Proof.
  intros Hne. unfold part_or_center.
  destruct (String.eqb_spec part ""); [contradiction | reflexivity].
Qed.

(** An attached object at the end of a step: it is where its last integrate
    of the step put it, at the recorded point of the target as the target
    then was. *)
Lemma step_follows (hypot : float -> float -> float) (h : heap)
    (self : nat) (o : PhysicsObject) (target : nat) (part : string)
    (offset : Vector2) (before after : list nat)
    (constraints : list RodSpring) (dt : float) (h' : heap) :
  h !! self = Some o -> _attached_to o = Some target ->
  _attached_part o = Some part -> _attached_offset o = Some offset ->
  part ≠ "" -> self ∉ after ->
  step hypot (before ++ self :: after) constraints dt h = (OK tt, h') ->
  ∃ o' t1 attach_point,
    h' !! self = Some o' ∧ attach_point_of t1 part = OK attach_point ∧
    position o' = v_add attach_point offset ∧
    velocity o' = velocity t1 ∧ static o' = static o ∧
    (target ≠ self -> target ∉ after -> h' !! target = Some t1).
Proof.
  intros Hs Ha Hpart Hoff Hname Hafter H. unfold step in H.
  apply bind_inv in H as ([] & h1 & H1 & H).
  rewrite for_each_app in H. apply bind_inv in H as ([] & h2 & H2 & H).
  cbn [for_each] in H. apply bind_inv in H as ([] & h3 & H3 & H).
  pose proof (constraint_pass_same_static hypot constraints dt h _ _ _
                (λ r, eq_refl) H1) as Hs1.
  pose proof (integrate_pass_same_static before dt h _ _ _ Hs1 H2) as Hs2.
  destruct (same_static_lookup _ _ _ _ Hs2 Hs) as (o2 & Ho2 & Hst).
  pose proof Hst as Hst'. injection Hst' as _ _ _ Ha2 Hp2 Hoff2 _ _.
  rewrite Ha in Ha2. rewrite Hpart in Hp2. rewrite Hoff in Hoff2.
  destruct (integrate_attached_inv _ _ _ _ _ _ Ho2 Ha2 H3) as (t2 & ap & Ht2 & Hap & ->).
  rewrite Hp2, (part_or_center_recorded _ Hname) in Hap.
  exists (follow ap (velocity t2) o2), t2, ap.
  split; [|split; [exact Hap|split; [|split; [reflexivity|split; [exact Hst|]]]]].
  - refine (for_each_keeps_lookup _ after self _ _ _ _ _ _ H);
      [|apply lookup_insert_eq].
    intros r Hr h4 res h5 Hl Hint. rewrite <- Hl.
    eapply integrate_frame; [exact Hint|]. intros ->. contradiction.
  - unfold follow, followed_position. now rewrite Hoff2.
  - intros Hne Htarget.
    refine (for_each_keeps_lookup _ after target _ _ _ _ _ _ H).
    + intros r Hr h4 res h5 Hl Hint. rewrite <- Hl.
      eapply integrate_frame; [exact Hint|]. intros ->. contradiction.
    + now rewrite lookup_insert_ne by congruence.
Qed.

(** C2: while an object is attached, apply_force on it changes nothing,
    so a spring's apply, and the whole constraint pass of a step, leave the
    object exactly as it was.  integrate on it returns with its velocity the
    velocity its target has at the call (and still has after it) and its
    position v_add(attach point, recorded offset), the attach point being
    the one of the recorded name on the target.  At the end of a step that
    returns, the object has the position and velocity its last integrate of
    the step gave it: the target's point of the recorded name plus the
    offset, and the target's velocity, as the target was at that integrate
    (and is at the end of the step, when the target is another object that
    is not integrated after it); its other attributes are as before the
    step, whatever the springs. *)
Theorem attached_is_kinematic (hypot : float -> float -> float) (h : heap)
    (self : nat) (o : PhysicsObject) (target : nat) (target_part : string)
    (offset : Vector2) :
  h !! self = Some o -> _attached_to o = Some target ->
  _attached_part o = Some target_part -> _attached_offset o = Some offset ->
  (∀ force dt, apply_force self force dt h = (OK tt, h)) ∧
  (∀ c dt res h', apply hypot c dt h = (res, h') -> h' !! self = Some o) ∧
  (∀ constraints dt res h',
     for_each (λ c, apply hypot c dt) constraints h = (res, h') ->
     h' !! self = Some o) ∧
  (∀ t attach_point dt,
     h !! target = Some t ->
     attach_point_of t target_part = OK attach_point ->
     ∃ o',
       integrate self dt h = (OK tt, <[self := o']> h) ∧
       velocity o' = velocity t ∧
       position o' = v_add attach_point offset ∧
       (∃ t', <[self := o']> h !! target = Some t' ∧ velocity o' = velocity t') ∧
       (target ≠ self -> <[self := o']> h !! target = Some t) ∧
       set_velocity (velocity o) (set_position (position o) o') = o) ∧
  (∀ before after constraints dt h',
     target_part ≠ "" -> self ∉ after ->
     step hypot (before ++ self :: after) constraints dt h = (OK tt, h') ->
     ∃ o' t1 attach_point,
       h' !! self = Some o' ∧ attach_point_of t1 target_part = OK attach_point ∧
       position o' = v_add attach_point offset ∧
       velocity o' = velocity t1 ∧ static o' = static o ∧
       (target ≠ self -> target ∉ after -> h' !! target = Some t1)).
Proof.
  intros Hs Ha Hpart Hoff.
  assert (_attached_to o ≠ None) as Hatt by congruence.
  split; [|split; [|split; [|split]]].
  - intros force dt. rewrite (apply_force_run _ _ _ _ _ Hs).
    unfold is_attached. rewrite bool_decide_eq_true_2 by assumption.
    now rewrite orb_true_r.
  - intros c dt res h' H.
    refine (preserves_apply hypot (λ h, h !! self = Some o) c dt _ _ _ _ Hs H).
    intros; now apply apply_force_keeps_attached.
  - intros cs dt res h' H.
    refine (preserves_for_each (λ h, h !! self = Some o) _ cs _ _ _ _ Hs H).
    intros c. apply preserves_apply. intros; now apply apply_force_keeps_attached.
  - intros t ap dt Ht Hp. exists (follow ap (velocity t) o).
    split.
    { apply (integrate_attached _ _ _ _ _ _ _ Hs Ha Ht).
      now rewrite Hpart, (attach_point_of_known_name _ _ _ Hp). }
    split; [reflexivity|].
    split; [unfold follow, followed_position; now rewrite Hoff|].
    split; [|split].
    + destruct (decide (target = self)) as [->|Hne].
      * eexists. rewrite lookup_insert_eq. split; reflexivity.
      * exists t. rewrite lookup_insert_ne by congruence. auto.
    + intros Hne. now rewrite lookup_insert_ne by congruence.
    + now destruct o.
  - intros before after constraints dt h' Hname Hafter H.
    exact (step_follows hypot h self o target target_part offset before after
             constraints dt h' Hs Ha Hpart Hoff Hname Hafter H).
Qed.

Lemma attached_is_kinematic_witness :
  ∃ o', integrate rider 0.001 corner_scene = (OK tt, <[rider := o']> corner_scene) ∧
        velocity o' = (1, 0)%float ∧ position o' = (1, 1)%float.
Proof.
  destruct (proj1 (proj2 (proj2 (proj2
              (attached_is_kinematic hypot_sqrt corner_scene rider _ crate
                 "top_left" (-2, -3)%float eq_refl eq_refl eq_refl eq_refl))))
              _ (3, 4)%float 0.001%float eq_refl eq_refl)
    as (o' & Hrun & Hv & Hp & _).
  exists o'. repeat split; assumption.
Defined.

(** X10: when an attached object is the last one a step integrates, and its
    target is another object, then at the end of a step that returns its
    position is exactly v_add(attach point, offset) for the point of the
    recorded name on the target as the target is at the end of the step, and
    its velocity is the velocity the target has at the end of the step. *)
Theorem follower_integrated_last (hypot : float -> float -> float) (h : heap)
    (self : nat) (o : PhysicsObject) (target : nat) (target_part : string)
    (offset : Vector2) (before : list nat) (constraints : list RodSpring)
    (dt : float) (h' : heap) :
  h !! self = Some o -> _attached_to o = Some target ->
  _attached_part o = Some target_part -> _attached_offset o = Some offset ->
  target_part ≠ "" -> target ≠ self ->
  step hypot (before ++ [self]) constraints dt h = (OK tt, h') ->
  ∃ o' t' attach_point,
    h' !! self = Some o' ∧ h' !! target = Some t' ∧
    attach_point_of t' target_part = OK attach_point ∧
    position o' = v_add attach_point offset ∧
    velocity o' = velocity t' ∧ static o' = static o.
Proof.
  intros Hs Ha Hpart Hoff Hname Hne H.
  destruct (step_follows hypot h self o target target_part offset before []
              constraints dt h' Hs Ha Hpart Hoff Hname (not_elem_of_nil _) H)
    as (o' & t1 & ap & Hs' & Hap & Hp & Hv & Hst & Ht).
  exists o', t1, ap. repeat split; try assumption.
  apply Ht; [assumption | apply not_elem_of_nil].
Qed.

Lemma follower_integrated_last_witness :
  position <$> (step hypot_sqrt [crate; rider] [] 1 corner_scene).2 !! rider
    = Some (2, 1)%float.
Proof.
  destruct (follower_integrated_last hypot_sqrt corner_scene rider _ crate
              "top_left" (-2, -3)%float [crate] [] 1
              (step hypot_sqrt [crate; rider] [] 1 corner_scene).2
              eq_refl eq_refl eq_refl eq_refl)
    as (o' & t' & ap & Hs & Ht & Hap & Hp & _).
  - discriminate.
  - discriminate.
  - reflexivity.
  - rewrite Hs. cbn [fmap option_fmap option_map]. f_equal. rewrite Hp.
    assert (Some t' = Some (Box_new (5, 5)%float (1, 0)%float 1 2 2)) as [= ->]
      by (rewrite <- Ht; reflexivity).
    injection Hap as <-. reflexivity.
Defined.

(** X11: following is idempotent while the target stays where it is: after
    an integrate of an attached object (attached to another object) has
    returned, a second integrate on it, with any dt, returns and changes
    nothing. *)
Theorem integrate_attached_idempotent (h : heap) (self : nat) (o : PhysicsObject)
    (target : nat) (dt dt' : float) (h1 : heap) :
  h !! self = Some o -> _attached_to o = Some target -> target ≠ self ->
  integrate self dt h = (OK tt, h1) -> integrate self dt' h1 = (OK tt, h1).
Proof.
  intros Hs Ha Hne H.
  destruct (integrate_attached_inv _ _ _ _ _ _ Hs Ha H) as (t & ap & Ht & Hap & ->).
  set (o1 := follow ap (velocity t) o).
  rewrite (integrate_attached (<[self := o1]> h) self o1 target t ap dt'
             (lookup_insert_eq _ _ _) Ha).
  - rewrite insert_insert_eq. reflexivity.
  - now rewrite lookup_insert_ne by congruence.
  - exact Hap.
Qed.

Lemma integrate_attached_idempotent_witness :
  integrate ball 0.5 (integrate ball 0.001 demo_attached).2 =
    (OK tt, (integrate ball 0.001 demo_attached).2).
Proof.
  refine (integrate_attached_idempotent demo_attached ball _ anchor 0.001 0.5 _
            eq_refl eq_refl _ eq_refl).
  discriminate.
Defined.

(** ** Springs: construction and the two forces *)

(** X12: the constructor of a spring reads the store without changing it and
    never leaves the rest length unset: a given rest length is kept, a
    missing one becomes the distance between the two objects at
    construction.  So apply on a constructed spring returns normally on
    every store in which its two objects are live, the store of
    construction included. *)
Theorem RodSpring_new_spec (hypot : float -> float -> float) (h : heap)
    (ra rb : nat) (oa ob : PhysicsObject) (rest : option float)
    (k d : float) :
  h !! ra = Some oa -> h !! rb = Some ob ->
  ∃ c,
    RodSpring_new hypot ra rb rest k d h = (OK c, h) ∧
    a c = ra ∧ b c = rb ∧ stiffness c = k ∧ damping c = d ∧
    rest_length c =
      Some (match rest with
            | Some r => r
            | None => v_len hypot (v_sub (position ob) (position oa))
            end) ∧
    ∀ h1 dt, is_Some (h1 !! ra) -> is_Some (h1 !! rb) ->
             ∃ h2, apply hypot c dt h1 = (OK tt, h2).
Proof.
  intros Ha Hb.
  assert (∀ c, a c = ra -> b c = rb -> rest_length c ≠ None ->
               ∀ h1 dt, is_Some (h1 !! ra) -> is_Some (h1 !! rb) ->
                        ∃ h2, apply hypot c dt h1 = (OK tt, h2))
    as Happly.
  { intros c Hca Hcb Hr h1 dt Hla Hlb. apply apply_returns.
    rewrite <- Hca in Hla. rewrite <- Hcb in Hlb. repeat split; assumption. }
  destruct rest as [r|].
  - eexists. split; [reflexivity|]. repeat split. now apply Happly.
  - eexists. split.
    + unfold RodSpring_new. run. reflexivity.
    + repeat split. now apply Happly.
Qed.

Lemma RodSpring_new_spec_witness :
  ∃ c, RodSpring_new hypot_sqrt 0 1 None 100 0 spring_scene = (OK c, spring_scene) ∧
       rest_length c = Some 5%float ∧
       ∃ h2, apply hypot_sqrt c 0.001
               (attach_to 1 (Some 0%nat) "center" spring_scene).2 = (OK tt, h2).
Proof.
  destruct (RodSpring_new_spec hypot_sqrt spring_scene 0 1 _ _ None 100 0
              eq_refl eq_refl) as (c & Hnew & _ & _ & _ & _ & Hrest & Happly).
  exists c. split; [exact Hnew|]. split; [exact Hrest|].
  apply Happly; eexists; reflexivity.
Defined.

(** X13: what a spring's apply does to its two ends.  For a spring between
    two different live objects, with its rest length set and a distance that
    is not zero, apply returns; the end [a] is pushed by the force scaled by
    -1 and the end [b] by the force, both computed from the two objects as
    they were before the call; an end that is fixed, attached or of mass
    <= 0 is left as it is. *)
Theorem apply_pushes_both_ends (hypot : float -> float -> float) (h : heap)
    (c : RodSpring) (oa ob : PhysicsObject) (r dt : float) :
  h !! a c = Some oa -> h !! b c = Some ob -> a c ≠ b c ->
  rest_length c = Some r ->
  PrimFloat.eqb (v_len hypot (v_sub (position ob) (position oa))) 0 = false ->
  let force := spring_force hypot c oa ob r in
  apply hypot c dt h =
    (OK tt,
     <[b c := pushed ob force dt]>
       (<[a c := pushed oa (v_scale force (-1)) dt]> h)).
Proof.
  intros Ha Hb Hne Hr Hd force.
  rewrite (apply_run hypot h c oa ob dt Ha Hb), Hd, Hr. fold force.
  assert (∀ (h0 : heap) self o f,
            h0 !! self = Some o ->
            apply_force self f dt h0 = (OK tt, <[self := pushed o f dt]> h0))
    as Hpush.
  { intros h0 self o f Hs. rewrite (apply_force_run _ _ _ _ _ Hs).
    unfold pushed, responds. destruct (_ || _); cbn [negb]; [|reflexivity].
    now rewrite insert_id. }
  rewrite (bind_ok _ _ _ _ _ (Hpush h (a c) oa _ Ha)).
  apply Hpush. now rewrite lookup_insert_ne.
Qed.

Lemma apply_pushes_both_ends_witness :
  apply hypot_sqrt (mkSpring anchor ball (Some 2%float) 100 0) 0.5 demo =
    (OK tt,
     <[ball := set_velocity (50, 0)%float (Ball_new (1, 0)%float v_zero 1 0.2)]> demo).
Proof.
  etransitivity.
  - refine (apply_pushes_both_ends hypot_sqrt demo
              (mkSpring anchor ball (Some 2%float) 100 0) _ _ 2 0.5
              eq_refl eq_refl _ eq_refl eq_refl).
    discriminate.
  - reflexivity.
Defined.

(** X14: a spring constructed without a rest length starts at equilibrium.
    Between two free, non-fixed objects with zero velocities and masses that
    are numbers, at a finite distance (with a finite unit direction), with
    finite stiffness and zero damping, math.hypot not depending on the signs
    of its arguments: any number of steps with finite dt returns, the
    velocities stay zero and the distance stays the rest length the
    constructor took. *)
Theorem default_rest_length_is_equilibrium (hypot : float -> float -> float)
    (h : heap) (ra rb : nat) (oa ob : PhysicsObject) (k d : float)
    (objects : list nat) (dts : list float) :
  (∀ x y, hypot x y = hypot (abs x) (abs y)) ->
  h !! ra = Some oa -> h !! rb = Some ob -> still oa -> still ob ->
  is_finite k = true -> is_zero d = true ->
  let delta := v_sub (position ob) (position oa) in
  let r0 := v_len hypot delta in
  is_finite r0 = true ->
  (PrimFloat.eqb r0 0 = false ->
   is_finite (delta.1 / r0) = true ∧ is_finite (delta.2 / r0) = true) ->
  Forall (λ dt, is_finite dt = true) dts ->
  Forall (λ r, r = ra ∨ r = rb) objects ->
  ∃ c h' oa' ob',
    RodSpring_new hypot ra rb None k d h = (OK c, h) ∧
    rest_length c = Some r0 ∧
    for_each (λ dt, step hypot objects [c] dt) dts h = (OK tt, h') ∧
    h' !! ra = Some oa' ∧ h' !! rb = Some ob' ∧ still oa' ∧ still ob' ∧
    v_len hypot (v_sub (position ob') (position oa')) = r0.
Proof.
  intros Habs Hsa Hsb Hstill_a Hstill_b Hk Hd delta r0 Hr0 Hdir Hdts Hobjs.
  set (c := mkSpring ra rb (Some r0) k d).
  assert (at_rest h (a c) (position oa)) as Ha.
  { exists oa. split; [assumption|]. split; [assumption|]. split; apply feq_refl. }
  assert (at_rest h (b c) (position ob)) as Hb.
  { exists ob. split; [assumption|]. split; [assumption|]. split; apply feq_refl. }
  destruct (steps_at_rest hypot Habs c r0 (position oa) (position ob)
              eq_refl Hr0 Hk Hd eq_refl Hdir objects dts h Hdts Hobjs Ha Hb)
    as (h' & Hrun & (oa' & Hsa' & Hstill_a' & Hpa) & (ob' & Hsb' & Hstill_b' & Hpb)).
  exists c, h', oa', ob'. split.
  { unfold RodSpring_new. run. reflexivity. }
  split; [reflexivity|]. split; [exact Hrun|].
  split; [exact Hsa'|]. split; [exact Hsb'|].
  split; [exact Hstill_a'|]. split; [exact Hstill_b'|].
  exact (separation_feq hypot Habs r0 (position oa) (position ob) eq_refl _ _ Hpa Hpb).
Qed.

Lemma default_rest_length_is_equilibrium_witness :
  ∃ c h' oa' ob',
    RodSpring_new hypot_sqrt 0 1 None 100 0 spring_scene = (OK c, spring_scene) ∧
    rest_length c = Some 5%float ∧
    for_each (λ dt, step hypot_sqrt [0%nat; 1%nat] [c] dt) [0.001; 0.002]%float
             spring_scene = (OK tt, h') ∧
    h' !! 0%nat = Some oa' ∧ h' !! 1%nat = Some ob' ∧
    v_len hypot_sqrt (v_sub (position ob') (position oa')) = 5%float.
Proof.
  assert (still (Ball_new (0, 0)%float v_zero 1 0.1)) as Ha by (repeat split).
  assert (still (Ball_new (3, 4)%float v_zero 1 0.1)) as Hb by (repeat split).
  assert (Forall (λ dt, is_finite dt = true) [0.001; 0.002]%float) as Hdts
    by (repeat constructor).
  assert (Forall (λ r : nat, r = 0%nat ∨ r = 1%nat) [0%nat; 1%nat])
    as Hobjs by (repeat constructor; auto).
  destruct (default_rest_length_is_equilibrium hypot_sqrt spring_scene 0 1
              (Ball_new (0, 0)%float v_zero 1 0.1) (Ball_new (3, 4)%float v_zero 1 0.1)
              100 0 [0%nat; 1%nat] [0.001; 0.002]%float hypot_sqrt_abs
              eq_refl eq_refl Ha Hb eq_refl eq_refl eq_refl
              (λ _, conj eq_refl eq_refl) Hdts Hobjs)
    as (c & h' & oa' & ob' & Hnew & Hrest & Hrun & Hsa & Hsb & _ & _ & Hsep).
  exists c, h', oa', ob'. repeat split; assumption.
Defined.

(** ** Vector helpers *)

Lemma add_comm_float (x y : float) : (x + y = y + x)%float.
Proof.
  apply Prim2SF_inj. to_spec.
  destruct (Prim2SF x) as [[]|[]| |sx mx ex], (Prim2SF y) as [[]|[]| |sy my ey];
    try reflexivity.
  unfold SFadd. now rewrite Z.min_comm, Z.add_comm.
Qed.

(** X15: v_add is commutative on all floats, infinities, NaN and signed
    zeros included; and v_sub of a vector with finite coordinates from
    itself is the zero vector (0.0, 0.0). *)
Theorem v_add_comm_v_sub_diag (p q : Vector2) :
  v_add p q = v_add q p ∧
  (is_finite p.1 = true -> is_finite p.2 = true -> v_sub p p = v_zero).
Proof.
  split.
  - unfold v_add. now rewrite (add_comm_float p.1), (add_comm_float p.2).
  - intros H1 H2. unfold v_sub, v_zero. now rewrite !sub_diag_finite.
Qed.

Lemma v_add_comm_v_sub_diag_witness : v_sub (3, 4)%float (3, 4)%float = v_zero.
Proof.
  exact (proj2 (v_add_comm_v_sub_diag (3, 4)%float (0, 0)%float) eq_refl eq_refl).
Defined.

(** ** Methods and the other objects *)

(** X16: apply_force, integrate, attach_to and detach assign to their own
    object only: whether they return or raise, every other object of the
    store (the target of an attachment included) is left exactly as it
    was. *)
Theorem methods_touch_self_only (h : heap) (self r : nat) (res : result unit)
    (h' : heap) :
  r ≠ self ->
  ((∃ force dt, apply_force self force dt h = (res, h')) ∨
   (∃ dt, integrate self dt h = (res, h')) ∨
   (∃ target target_part, attach_to self target target_part h = (res, h')) ∨
   detach self h = (res, h')) ->
  h' !! r = h !! r.
Proof.
  intros Hne [(force & dt & H)|[(dt & H)|[(target & part & H)|H]]].
  - exact (apply_force_frame _ _ _ _ _ _ _ H Hne).
  - exact (integrate_frame _ _ _ _ _ _ H Hne).
  - exact (attach_to_frame _ _ _ _ _ _ _ H Hne).
  - exact (detach_frame _ _ _ _ _ H Hne).
Qed.

Lemma methods_touch_self_only_witness :
  (attach_to ball (Some anchor) "anchor" demo).2 !! anchor = demo !! anchor.
Proof.
  refine (methods_touch_self_only demo ball anchor (OK tt) _ _ _).
  - discriminate.
  - do 2 right. left. exists (Some anchor), "anchor". reflexivity.
Defined.

(** X17: a detached object carries on at the target's velocity.  For an
    attached object whose saved state is not fixed, detach
    followed by integrate returns with the object at
    position + target velocity * dt (componentwise, in float arithmetic),
    moving at the target's velocity, free and not fixed. *)
Theorem detach_then_integrate (h : heap) (self : nat) (o : PhysicsObject)
    (target : nat) (t : PhysicsObject) (dt : float) :
  h !! self = Some o -> _attached_to o = Some target -> h !! target = Some t ->
  _previous_fixed_state o = Some false ->
  ∃ o',
    (detach self ≫= λ _, integrate self dt) h = (OK tt, <[self := o']> h) ∧
    position o' = ((position o).1 + (velocity t).1 * dt,
                   (position o).2 + (velocity t).2 * dt)%float ∧
    velocity o' = velocity t ∧ fixed o' = false ∧ _attached_to o' = None.
Proof.
  intros Hs Ha Ht Hprev.
  rewrite (bind_ok _ _ _ _ _ (detach_attached _ _ _ _ _ Hs Ha Ht)).
  set (o1 := detached o (velocity t)).
  rewrite (integrate_free (<[self := o1]> h) self o1 dt (lookup_insert_eq _ _ _) eq_refl).
  assert (fixed o1 = false) as Hf by (cbn; now rewrite Hprev).
  rewrite Hf, insert_insert_eq.
  exists (euler o1 dt). repeat split. exact Hf.
Qed.

Lemma detach_then_integrate_witness :
  ∃ o', (detach ball ≫= λ _, integrate ball 2) demo_attached =
          (OK tt, <[ball := o']> demo_attached) ∧
        position o' = (2, 0)%float.
Proof.
  destruct (detach_then_integrate demo_attached ball _ anchor _ 2
              eq_refl eq_refl eq_refl eq_refl) as (o' & Hrun & Hp & _).
  exists o'. split; [exact Hrun | exact Hp].
Defined.
